(** * Conversion of MATLAB recordings into NumPy archives

    A shallow embedding of [scripts/convert_pinknoise_to_npz.py] (the
    flattening routine and the single-file converter) and of
    [scripts/convert_expd_to_npz.py] (the batch driver), with the properties
    the specification states about them.

    Python dictionaries that the scripts only insert into and look up
    ([flat], [shapes], the file system) are finite maps; the loaded record,
    whose iteration order drives the traversal, is an association list in
    insertion order.  Exceptions are an explicit error result. *)

From stdpp Require Import gmap strings list fin_maps pretty sorting.
From Stdlib Require Import String Ascii OrderedTypeEx.

Open Scope string_scope.
Open Scope list_scope.
Open Scope nat_scope.

(** ** Exceptions and the error monad *)

(** A resolved path, as the sequence of its components below the root. *)
Abbreviation Path := (list string).

Inductive exn :=
| DuplicateKey (name : string)          (* ValueError raised by flatten_value *)
| ItemSizeError                         (* ValueError raised by ndarray.item *)
| NoUsableArrays (input_path : Path)    (* RuntimeError raised by convert_file *)
| KeywordClash (key : string)           (* TypeError: a key taken for a parameter *)
| LoadError (input_path : Path)         (* loadmat could not read its input *)
| InputDirMissing (input_dir : Path)    (* FileNotFoundError raised by main *)
| NoFilesMatching (pattern : string) (input_dir : Path) (* RuntimeError raised by main *)
| MkdirError (p : Path).                (* mkdir met a file on its way *)

Inductive result (A : Type) :=
| Ok (a : A)
| Raise (e : exn).
Arguments Ok {A} a.
Arguments Raise {A} e.

(** Sequencing: an exception ends the computation ([x ← r; k]).  The
    dictionaries a call was filling in when it raised are not part of the
    outcome: no caller in the scripts catches an exception and looks at
    them. *)
Global Instance result_bind : MBind result := λ A B k r,
  match r with
  | Ok a => k a
  | Raise e => Raise e
  end.

(** A [for] loop over a list whose body may raise and updates a state. *)
Definition for_each {A St} (body : A → St → result St) : list A → St → result St :=
  fix loop (l : list A) (st : St) : result St :=
    match l with
    | [] => Ok st
    | x :: rest => st' ← body x st ; loop rest st'
    end.

(** [for idx, item in enumerate(l)], counting from [idx]. *)
Definition for_each_enum {A St} (body : nat → A → St → result St)
  : nat → list A → St → result St :=
  fix loop (idx : nat) (l : list A) (st : St) : result St :=
    match l with
    | [] => Ok st
    | x :: rest => st' ← body idx x st ; loop (S idx) rest st'
    end.

(** ** Python values and NumPy arrays *)

(** Element types of arrays.  [DNumeric] carries the canonical name of a
    numeric or boolean element type ("float64", "uint8", ...). *)
Inductive dtype :=
| DObject
| DUnicode (n : nat)
| DBytes (n : nat)
| DNumeric (canon : string).

Global Instance dtype_eq_dec : EqDecision dtype.
Proof. solve_decision. Defined.

(** [str(arr.dtype)] *)
Definition dtype_str (d : dtype) : string :=
  match d with
  | DObject => "object"
  | DUnicode n => "<U" +:+ pretty n
  | DBytes n => "|S" +:+ pretty n
  | DNumeric canon => canon
  end.

Record ndarray (A : Type) := NdArray {
  nd_dtype : dtype;
  nd_shape : list nat;
  nd_data : list A   (* the elements, in row-major order *)
}.
Arguments NdArray {A} _ _ _.
Arguments nd_dtype {A} _.
Arguments nd_shape {A} _.
Arguments nd_data {A} _.

(** A node of the loaded record.  [PMapping] is a dictionary with its
    items in iteration order, the keys being field names; [PSeq] is a list
    or tuple; [PScalar] is a Python or NumPy number with the element type
    [np.asarray] gives it; [POpaque] is any other object ([None], a loader
    handle).  Strings are sequences of 8-bit characters. *)
#[warnings="-register-all"] Inductive pyvalue :=
| PMapping (items : list (string * pyvalue))
| PStr (s : string)
| PSeq (elems : list pyvalue)
| PBytes (b : string)
| PByteArray (b : string)
| PScalar (canon : string) (repr : Z)
| POpaque (tag : nat)
| PArray (arr : ndarray pyvalue).

Definition isinstance_Mapping (v : pyvalue) : bool :=
  match v with PMapping _ => true | _ => false end.

Definition isinstance_str (v : pyvalue) : bool :=
  match v with PStr _ => true | _ => false end.

(** [collections.abc.Sequence]: lists and tuples, and also [str], [bytes]
    and [bytearray]; [np.ndarray] is not registered as one. *)
Definition isinstance_Sequence (v : pyvalue) : bool :=
  match v with
  | PSeq _ | PStr _ | PBytes _ | PByteArray _ => true
  | _ => false
  end.

(** [isinstance(v, (bytes, bytearray, np.ndarray, str))] *)
Definition isinstance_raw (v : pyvalue) : bool :=
  match v with
  | PBytes _ | PByteArray _ | PArray _ | PStr _ => true
  | _ => false
  end.

(** [value.items()] of a mapping and the elements of a sequence. *)
Definition mapping_items (v : pyvalue) : list (string * pyvalue) :=
  match v with PMapping items => items | _ => [] end.

Definition seq_elems (v : pyvalue) : list pyvalue :=
  match v with PSeq elems => elems | _ => [] end.

(** [list(element)] *)
Definition to_list (v : pyvalue) : pyvalue := PSeq (seq_elems v).

(** [np.asarray].  The converter calls it on strings and on values that are
    neither mappings nor lists; for these two the clauses below only make
    the function total. *)
Definition asarray (v : pyvalue) : ndarray pyvalue :=
  match v with
  | PArray arr => arr
  | PStr s => NdArray (DUnicode (Nat.max 1 (String.length s))) [] [v]
  | PBytes b => NdArray (DBytes (Nat.max 1 (String.length b))) [] [v]
  | PByteArray b =>
      NdArray (DNumeric "uint8") [String.length b]
        ((λ c, PScalar "uint8" (Z.of_nat (nat_of_ascii c))) <$> list_ascii_of_string b)
  | PScalar canon _ => NdArray (DNumeric canon) [] [v]
  | POpaque _ => NdArray DObject [] [v]
  | PMapping _ => NdArray DObject [] [v]
  | PSeq elems => NdArray DObject [List.length elems] elems
  end.

(** [arr.size] *)
Definition nd_size {A} (arr : ndarray A) : nat := foldr Nat.mul 1 (nd_shape arr).

(** [arr.item()] *)
Definition item {A} (arr : ndarray A) : result A :=
  match nd_data arr with
  | [element] => Ok element
  | _ => Raise ItemSizeError
  end.

(** [arr.dtype == object and arr.size == 1] *)
Definition is_boxed {A} (arr : ndarray A) : bool :=
  bool_decide (nd_dtype arr = DObject) && bool_decide (nd_size arr = 1).

(** ** The flattening routine *)

Record manifest_entry := ManifestEntry {
  me_shape : list nat;
  me_dtype : string
}.

Global Instance manifest_entry_eq_dec : EqDecision manifest_entry.
Proof. solve_decision. Defined.

(** [{"shape": arr.shape, "dtype": str(arr.dtype)}] *)
Definition entry_of (arr : ndarray pyvalue) : manifest_entry :=
  ManifestEntry (nd_shape arr) (dtype_str (nd_dtype arr)).

(** The two dictionaries [flatten_value] fills in. *)
Record fstate := FState {
  flat : gmap string (ndarray pyvalue);
  shapes : gmap string manifest_entry
}.

Definition fstate_empty : fstate := FState ∅ ∅.

(** [flat[name] = arr; shapes[name] = {...}] *)
Definition assign (name : string) (arr : ndarray pyvalue) (st : fstate) : fstate :=
  FState (<[name := arr]> (flat st)) (<[name := entry_of arr]> (shapes st)).

(** The tail of [flatten_value]: the duplicate check, then the assignment. *)
Definition store (name : string) (arr : ndarray pyvalue) (st : fstate) : result fstate :=
  match flat st !! name with
  | Some _ => Raise (DuplicateKey name)
  | None => Ok (assign name arr st)
  end.

(** [f"{name}_{sub_key}" if name else str(sub_key)] *)
Definition sub_name (name sub_key : string) : string :=
  match name with
  | "" => sub_key
  | _ => name +:+ "_" +:+ sub_key
  end.

(** [f"{name}_{idx}"] *)
Definition idx_name (name : string) (idx : nat) : string :=
  name +:+ "_" +:+ pretty idx.

(** [flatten_value], by recursion on the structure of [value].  An array is
    the only value whose [item()] is a proper part of it, so the unwrapping
    of a boxed singleton is spelled out in the [PArray] clause; every other
    terminal value is stored as [np.asarray] converts it.  The lemma
    [flatten_value_eq] recovers the text of the Python function from it. *)
Fixpoint flatten_value (name : string) (value : pyvalue) (st : fstate)
  {struct value} : result fstate :=
  match value with
  | PMapping items =>
      for_each (λ kv, flatten_value (sub_name name kv.1) kv.2) items st
  | PStr _ => Ok (assign name (asarray value) st)
  | PSeq elems =>
      for_each_enum (λ idx elem, flatten_value (idx_name name idx) elem) 0 elems st
  | PArray arr =>
      if is_boxed arr then
        match nd_data arr with
        | [element] =>
            match element with
            | PMapping _ | PSeq _ => flatten_value name element st
            | _ => store name (asarray element) st
            end
        | _ => Raise ItemSizeError
        end
      else store name arr st
  | _ => store name (asarray value) st
  end.

(** The body of the Python function, test by test, with the recursive calls
    left open. *)
Definition flatten_value_body
  (rec : string → pyvalue → fstate → result fstate)
  (name : string) (value : pyvalue) (st : fstate) : result fstate :=
  if isinstance_Mapping value then
    for_each (λ kv, rec (sub_name name kv.1) kv.2) (mapping_items value) st
  else if isinstance_str value then
    Ok (assign name (asarray value) st)
  else if isinstance_Sequence value && negb (isinstance_raw value) then
    for_each_enum (λ idx elem, rec (idx_name name idx) elem) 0 (seq_elems value) st
  else
    let arr := asarray value in
    if is_boxed arr then
      element ← item arr ;
      if isinstance_Mapping element then rec name element st
      else if isinstance_str element then store name (asarray element) st
      else if isinstance_Sequence element && negb (isinstance_raw element)
      then rec name (to_list element) st
      else store name (asarray element) st
    else store name arr st.

(** ** Runs of the flattening routine

    The runs of [flatten_value] as a relation between the arguments of a
    call and its outcome, one rule per path through the Python function and
    its two loops.  Nothing in the rules says that a call has one outcome
    only. *)

(** The value fails the three tests and goes to [np.asarray]. *)
Definition is_terminal (value : pyvalue) : Prop :=
  isinstance_Mapping value = false ∧
  isinstance_str value = false ∧
  isinstance_Sequence value && negb (isinstance_raw value) = false.

Inductive flatten_run : string → pyvalue → fstate → result fstate → Prop :=
| run_mapping name value st r :
    isinstance_Mapping value = true →
    items_run name (mapping_items value) st r →
    flatten_run name value st r
| run_str name value st :
    isinstance_Mapping value = false →
    isinstance_str value = true →
    flatten_run name value st (Ok (assign name (asarray value) st))
| run_sequence name value st r :
    isinstance_Mapping value = false →
    isinstance_str value = false →
    isinstance_Sequence value && negb (isinstance_raw value) = true →
    elems_run name 0 (seq_elems value) st r →
    flatten_run name value st r
| run_plain name value st :
    is_terminal value →
    is_boxed (asarray value) = false →
    flatten_run name value st (store name (asarray value) st)
| run_item_error name value st e :
    is_terminal value →
    is_boxed (asarray value) = true →
    item (asarray value) = Raise e →
    flatten_run name value st (Raise e)
| run_boxed_mapping name value element st r :
    is_terminal value →
    is_boxed (asarray value) = true →
    item (asarray value) = Ok element →
    isinstance_Mapping element = true →
    flatten_run name element st r →
    flatten_run name value st r
| run_boxed_str name value element st :
    is_terminal value →
    is_boxed (asarray value) = true →
    item (asarray value) = Ok element →
    isinstance_Mapping element = false →
    isinstance_str element = true →
    flatten_run name value st (store name (asarray element) st)
| run_boxed_sequence name value element st r :
    is_terminal value →
    is_boxed (asarray value) = true →
    item (asarray value) = Ok element →
    isinstance_Mapping element = false →
    isinstance_str element = false →
    isinstance_Sequence element && negb (isinstance_raw element) = true →
    flatten_run name (to_list element) st r →
    flatten_run name value st r
| run_boxed_other name value element st :
    is_terminal value →
    is_boxed (asarray value) = true →
    item (asarray value) = Ok element →
    is_terminal element →
    flatten_run name value st (store name (asarray element) st)

with items_run : string → list (string * pyvalue) → fstate → result fstate → Prop :=
| items_done name st :
    items_run name [] st (Ok st)
| items_raise name sub_key sub_val rest st e :
    flatten_run (sub_name name sub_key) sub_val st (Raise e) →
    items_run name ((sub_key, sub_val) :: rest) st (Raise e)
| items_next name sub_key sub_val rest st st' r :
    flatten_run (sub_name name sub_key) sub_val st (Ok st') →
    items_run name rest st' r →
    items_run name ((sub_key, sub_val) :: rest) st r

with elems_run : string → nat → list pyvalue → fstate → result fstate → Prop :=
| elems_done name idx st :
    elems_run name idx [] st (Ok st)
| elems_raise name idx elem rest st e :
    flatten_run (idx_name name idx) elem st (Raise e) →
    elems_run name idx (elem :: rest) st (Raise e)
| elems_next name idx elem rest st st' r :
    flatten_run (idx_name name idx) elem st (Ok st') →
    elems_run name (S idx) rest st' r →
    elems_run name idx (elem :: rest) st r.

Scheme flatten_run_mut := Induction for flatten_run Sort Prop
  with items_run_mut := Induction for items_run Sort Prop
  with elems_run_mut := Induction for elems_run Sort Prop.

Combined Scheme runs_mutind from flatten_run_mut, items_run_mut, elems_run_mut.

(** The runs of the loop of [convert_file] over the top-level keys. *)
Inductive record_run : list (string * pyvalue) → fstate → result fstate → Prop :=
| record_done st :
    record_run [] st (Ok st)
| record_skip key value rest st r :
    String.prefix "__" key = true →
    record_run rest st r →
    record_run ((key, value) :: rest) st r
| record_raise key value rest st e :
    String.prefix "__" key = false →
    flatten_run key value st (Raise e) →
    record_run ((key, value) :: rest) st (Raise e)
| record_next key value rest st st' r :
    String.prefix "__" key = false →
    flatten_run key value st (Ok st') →
    record_run rest st' r →
    record_run ((key, value) :: rest) st r.

(** ** Paths and the file system

    Paths are pathlib's pure POSIX paths: case-sensitive components, the
    stem and the suffix of a name split at its last dot. *)

(** [str.rfind(".")], [None] standing for -1. *)
Fixpoint rfind_dot (name : string) : option nat :=
  match name with
  | EmptyString => None
  | String c rest =>
      match rfind_dot rest with
      | Some i => Some (S i)
      | None => if Ascii.eqb c "." then Some 0 else None
      end
  end.

(** The index at which pathlib splits a file name into stem and suffix:
    the last dot, unless it is the first or the last character. *)
Definition split_point (name : string) : option nat :=
  match rfind_dot name with
  | Some i => if (0 <? i) && (i <? String.length name - 1) then Some i else None
  | None => None
  end.

(** [PurePath.name], [PurePath.stem], [PurePath.suffix] *)
Definition path_name (p : Path) : string := List.last p "".

Definition path_stem (p : Path) : string :=
  let name := path_name p in
  match split_point name with
  | Some i => substring 0 i name
  | None => name
  end.

Definition path_suffix (p : Path) : string :=
  let name := path_name p in
  match split_point name with
  | Some i => substring i (String.length name - i) name
  | None => ""
  end.

(** [p / child] for a child of one component. *)
Definition joinpath (p : Path) (child : string) : Path := p ++ [child].

(** [p.with_suffix(suffix)], for a path with a name and a suffix that
    starts with a dot. *)
Definition with_suffix (p : Path) (suffix : string) : Path :=
  let name := path_name p in
  let old_suffix := path_suffix p in
  joinpath (removelast p)
    (substring 0 (String.length name - String.length old_suffix) name +:+ suffix).

(** The order of [PurePosixPath]: component by component, each component
    by code points. *)
Fixpoint path_compare (p q : Path) : comparison :=
  match p, q with
  | [], [] => Eq
  | [], _ :: _ => Lt
  | _ :: _, [] => Gt
  | a :: p', b :: q' =>
      match String.compare a b with
      | Eq => path_compare p' q'
      | c => c
      end
  end.

Definition path_le (p q : Path) : Prop := path_compare p q ≠ Gt.

Global Instance path_le_dec : RelDecision path_le.
Proof. intros p q. unfold path_le. destruct (path_compare p q); [left|left|right]; congruence. Defined.

(** [sorted(paths)] *)
Definition sorted (paths : list Path) : list Path := merge_sort path_le paths.

(** The manifest document that is serialised as JSON. *)
Record manifest := Manifest {
  source_file : Path;
  npz_file : Path;
  converted_at : string;
  arrays : gmap string manifest_entry
}.

(** What a path of the file system holds.  A [MatFile] holds the record
    [loadmat] returns for it with the options of [convert_file]. *)
Inductive file :=
| MatFile (raw : list (string * pyvalue))
| NpzFile (archive : gmap string (ndarray pyvalue))
| JsonFile (doc : manifest)
| Directory
| OtherFile.

(** [p.exists()] *)
Definition path_exists (p : Path) (fs : gmap Path file) : bool :=
  bool_decide (is_Some (fs !! p)).

Definition loadmat (input_path : Path) (fs : gmap Path file)
  : result (list (string * pyvalue)) :=
  match fs !! input_path with
  | Some (MatFile raw) => Ok raw
  | _ => Raise (LoadError input_path)
  end.

(** The non-empty prefixes of a path, shortest first. *)
Fixpoint ancestors_from (base p : Path) : list Path :=
  match p with
  | [] => []
  | c :: rest => (base ++ [c]) :: ancestors_from (base ++ [c]) rest
  end.

(** Creating the directories [dirs] one after the other; a directory that
    is there is left alone, a file in its place is an error. *)
Fixpoint mkdir_each (dirs : list Path) (fs : gmap Path file)
  : gmap Path file * result unit :=
  match dirs with
  | [] => (fs, Ok ())
  | d :: rest =>
      match fs !! d with
      | None => mkdir_each rest (<[d := Directory]> fs)
      | Some Directory => mkdir_each rest fs
      | Some _ => (fs, Raise (MkdirError d))
      end
  end.

(** [p.mkdir(parents=True, exist_ok=True)] *)
Definition mkdir_parents (p : Path) (fs : gmap Path file)
  : gmap Path file * result unit :=
  mkdir_each (ancestors_from [] p) fs.

(** ** Single-file conversion *)

(** The loop of [convert_file] over the top-level keys. *)
Definition flatten_record (raw : list (string * pyvalue)) : result fstate :=
  for_each (λ kv st,
    if String.prefix "__" kv.1 then Ok st
    else flatten_value kv.1 kv.2 st) raw fstate_empty.

(** Everything [convert_file] does before it writes. *)
Definition load_and_flatten (input_path : Path) (fs : gmap Path file) : result fstate :=
  raw ← loadmat input_path fs;
  st ← flatten_record raw;
  if bool_decide (size (flat st) = 0) then Raise (NoUsableArrays input_path)
  else Ok st.

(** [np.savez_compressed(file, **kwds)]: the arrays are passed as keyword
    arguments, so that a key "file" is taken for the first parameter a
    second time and the call raises before it writes.  This is the call
    for a path that ends in [.npz] (NumPy appends the suffix to any other),
    at which a file can be written, and for keywords that are none of the
    other parameters of the function; the properties that depend on the
    write say so with [has_suffix], [can_write] and
    [stores_every_array]. *)
Definition savez_compressed (file_ : Path) (kwds : gmap string (ndarray pyvalue))
  (fs : gmap Path file) : gmap Path file * result unit :=
  if bool_decide (is_Some (kwds !! "file")) then (fs, Raise (KeywordClash "file"))
  else (<[file_ := NpzFile kwds]> fs, Ok ()).

(** [convert_file]; [now] is the time stamp [datetime.now] gives.  The
    result is the file system after the call and the returned value.  The
    two writes are those into a directory that is there and over no
    directory, which is where the drivers write without the force flag;
    [write_text] at another place raises after the archive is written, and
    the properties of the forced writes exclude it with [can_write] and
    [is_directory]. *)
Definition convert_file (now : string) (input_path output_path metadata_path : Path)
  (fs : gmap Path file) : gmap Path file * result (gmap string manifest_entry) :=
  match load_and_flatten input_path fs with
  | Raise e => (fs, Raise e)
  | Ok st =>
      match savez_compressed output_path (flat st) fs with
      | (fs1, Raise e) => (fs1, Raise e)
      | (fs1, Ok _) =>
          let doc := Manifest input_path output_path now (shapes st) in
          let fs2 := <[metadata_path := JsonFile doc]> fs1 in
          (fs2, Ok (shapes st))
      end
  end.

(** ** The batch driver *)

Record args := Args {
  input_dir : Path;
  output_dir : Path;
  experiment : string;
  pattern : string;
  force : bool
}.

(** [(args.output_dir / args.experiment).resolve()], for a label that is
    one component of the path ([proper_component]) under an output
    directory taken as resolved. *)
Definition destination_dir_of (a : args) : Path :=
  joinpath (output_dir a) (experiment a).

(** The lines the driver prints. *)
Inductive line :=
| Skipping (dataset_name : string)
| Converted (file_path output_path : Path)
| Completed (converted skipped : nat).

(** The state of the loop of [main]. *)
Record batch := Batch {
  b_fs : gmap Path file;
  b_converted : nat;
  b_skipped : nat;
  b_printed : list line
}.

(** The two destinations of a source file. *)
Definition output_path_of (destination_dir file_path : Path) : Path :=
  joinpath destination_dir (path_stem file_path +:+ ".npz").

Definition metadata_path_of (destination_dir file_path : Path) : Path :=
  with_suffix (output_path_of destination_dir file_path) ".json".

(** The body of the loop, for one file. *)
Definition main_step (now : Path → string) (force : bool) (destination_dir : Path)
  (file_path : Path) (b : batch) : batch * result unit :=
  let dataset_name := path_stem file_path in
  let output_path := output_path_of destination_dir file_path in
  let metadata_path := metadata_path_of destination_dir file_path in
  if negb force && (path_exists output_path (b_fs b) || path_exists metadata_path (b_fs b))
  then
    (Batch (b_fs b) (b_converted b) (b_skipped b + 1)
       (b_printed b ++ [Skipping dataset_name]), Ok ())
  else
    match convert_file (now file_path) file_path output_path metadata_path (b_fs b) with
    | (fs', Raise e) => (Batch fs' (b_converted b) (b_skipped b) (b_printed b), Raise e)
    | (fs', Ok _) =>
        (Batch fs' (b_converted b + 1) (b_skipped b)
           (b_printed b ++ [Converted file_path output_path]), Ok ())
    end.

(** The loop: it stops at the first exception. *)
Fixpoint main_loop (now : Path → string) (force : bool) (destination_dir : Path)
  (files : list Path) (b : batch) : batch * result unit :=
  match files with
  | [] => (b, Ok ())
  | file_path :: rest =>
      match main_step now force destination_dir file_path b with
      | (b', Ok _) => main_loop now force destination_dir rest b'
      | (b', Raise e) => (b', Raise e)
      end
  end.

(** [main] of the batch driver.  [globbed] is what
    [input_dir.glob(args.pattern)] yields, in the order of the file system,
    for a pattern [glob] accepts ([glob_pattern]); the result is the final
    file system, the lines printed and the outcome. *)
Definition main (a : args) (globbed : list Path) (now : Path → string)
  (fs : gmap Path file) : gmap Path file * list line * result unit :=
  if negb (path_exists (input_dir a) fs) then (fs, [], Raise (InputDirMissing (input_dir a)))
  else
    let files := sorted globbed in
    match files with
    | [] => (fs, [], Raise (NoFilesMatching (pattern a) (input_dir a)))
    | _ :: _ =>
        let destination_dir := destination_dir_of a in
        match mkdir_parents destination_dir fs with
        | (fs1, Raise e) => (fs1, [], Raise e)
        | (fs1, Ok _) =>
            match main_loop now (force a) destination_dir files (Batch fs1 0 0 []) with
            | (b, Raise e) => (b_fs b, b_printed b, Raise e)
            | (b, Ok _) =>
                (b_fs b,
                 b_printed b ++ [Completed (b_converted b) (b_skipped b)],
                 Ok ())
            end
        end
    end.

(** ** Vocabulary of the properties *)

Definition is_scalar (v : pyvalue) : bool :=
  match v with PScalar _ _ => true | _ => false end.

(** The two dictionaries agree: the same keys, and under every key the
    shape and element type of the array stored under it. *)
Definition consistent (st : fstate) : Prop :=
  dom (shapes st) = dom (flat st) ∧
  ∀ key arr,
    flat st !! key = Some arr →
    shapes st !! key = Some (ManifestEntry (nd_shape arr) (dtype_str (nd_dtype arr))).

(** The data set a printed line is about. *)
Definition line_dataset (l : line) : option string :=
  match l with
  | Skipping dataset_name => Some dataset_name
  | Converted file_path _ => Some (path_stem file_path)
  | Completed _ _ => None
  end.

(** The data sets the driver reported on, in the order of its lines. *)
Definition reported (printed : list line) : list string := omap line_dataset printed.

(** The test of the loop of [main] that sends a file to the skipped ones. *)
Definition has_output (fs : gmap Path file) (destination_dir file_path : Path) : bool :=
  path_exists (output_path_of destination_dir file_path) fs
  || path_exists (metadata_path_of destination_dir file_path) fs.


(** The destinations of a list of source files. *)
Definition batch_targets (destination_dir : Path) (files : list Path) : list Path :=
  files ≫= λ f, [output_path_of destination_dir f; metadata_path_of destination_dir f].





(** ** Sample inputs *)

(** A record in which two paths meet at the key [a_b]: the variable [a_b]
    and the field [b] of the structure [a], a string. *)
Definition colliding_record : list (string * pyvalue) :=
  [("__header__", PBytes "MATLAB 5.0 MAT-file");
   ("a_b", PScalar "float64" 1);
   ("a", PMapping [("b", PStr "late")])].

(** The same two paths, the string boxed in an object array. *)
Definition colliding_record_boxed : list (string * pyvalue) :=
  [("__header__", PBytes "MATLAB 5.0 MAT-file");
   ("a_b", PScalar "float64" 1);
   ("a", PMapping [("b", PArray (NdArray DObject [] [PStr "late"]))])].

(** A recording: a sampling rate and three samples. *)
Definition sample_record : list (string * pyvalue) :=
  [("__header__", PBytes "MATLAB 5.0 MAT-file");
   ("fs", PScalar "float64" 48000);
   ("u", PArray (NdArray (DNumeric "float64") [3]
                   [PScalar "float64" 1; PScalar "float64" 2; PScalar "float64" 3]))].

(** A directory of three recordings; [b] has been converted before. *)
Definition sample_fs : gmap Path file :=
  list_to_map
    [(["data"], Directory);
     (["data"; "a.mat"], MatFile sample_record);
     (["data"; "b.mat"], MatFile sample_record);
     (["data"; "c.mat"], MatFile sample_record);
     (["out"], Directory);
     (["out"; "ExpD"], Directory);
     (["out"; "ExpD"; "b.npz"], NpzFile ∅);
     (["out"; "ExpD"; "b.json"], OtherFile)].

Definition sample_args : args := Args ["data"] ["out"] "ExpD" "*.mat" false.

Definition sample_globbed : list Path :=
  [["data"; "b.mat"]; ["data"; "a.mat"]; ["data"; "c.mat"]].

(** A structure with a number, a string, and a list that holds a number
    and a boxed structure. *)
Definition sample_struct : pyvalue :=
  PMapping
    [("fs", PScalar "float64" 48000);
     ("unit", PStr "V");
     ("ch", PSeq [PScalar "float64" 1;
                  PArray (NdArray DObject [1] [PMapping [("gain", PScalar "float64" 2)]])])].

(** The same structure with the string boxed. *)
Definition sample_struct_boxed : pyvalue :=
  PMapping
    [("fs", PScalar "float64" 48000);
     ("unit", PArray (NdArray DObject [] [PStr "V"]));
     ("ch", PSeq [PScalar "float64" 1;
                  PArray (NdArray DObject [1] [PMapping [("gain", PScalar "float64" 2)]])])].

(** ** The single-file script

    [main] of [convert_pinknoise_to_npz.py], with its arguments as a record
    and the paths taken as resolved. *)

Module Pinknoise.

Record args := Args {
  input : Path;
  output_dir : Path;
  dataset_name : string;
  experiment : string;
  force : bool
}.

(** How a run ends when it raises: the two errors of [main], or an
    exception of [mkdir] or [convert_file]. *)
Inductive error :=
| FileNotFound (input_path : Path)
| FileExists (p : Path)
| Raised (e : exn).

(** The lines the script prints. *)
Inductive line :=
| Wrote (output_path : Path) (arrays : nat)
| MetadataStored (metadata_path : Path).

(** The destination directory and the two destinations, for a label and
    an archive name that are each one component of the path
    ([proper_component]). *)
Definition destination_dir_of (a : args) : Path :=
  joinpath (output_dir a) (experiment a).

Definition output_path_of (a : args) : Path :=
  joinpath (destination_dir_of a) (dataset_name a +:+ ".npz").

Definition metadata_path_of (a : args) : Path :=
  with_suffix (output_path_of a) ".json".

(** [main]: the file system after the run, the lines printed, and the
    error the run ended with, if any. *)
Definition main (a : args) (now : string) (fs : gmap Path file)
  : gmap Path file * list line * option error :=
  let input_path := input a in
  if negb (path_exists input_path fs) then (fs, [], Some (FileNotFound input_path))
  else
    match mkdir_parents (destination_dir_of a) fs with
    | (fs1, Raise e) => (fs1, [], Some (Raised e))
    | (fs1, Ok _) =>
        let output_path := output_path_of a in
        let metadata_path := metadata_path_of a in
        let existing :=
          if force a then None
          else List.find (λ p, path_exists p fs1) [output_path; metadata_path] in
        match existing with
        | Some p => (fs1, [], Some (FileExists p))
        | None =>
            match convert_file now input_path output_path metadata_path fs1 with
            | (fs2, Raise e) => (fs2, [], Some (Raised e))
            | (fs2, Ok shapes) =>
                (fs2, [Wrote output_path (size shapes); MetadataStored metadata_path],
                 None)
            end
        end
    end.

End Pinknoise.

(** The exceptions that come out of [convert_file]. *)
Definition is_conversion_error (e : exn) : bool :=
  match e with
  | LoadError _ | DuplicateKey _ | ItemSizeError | NoUsableArrays _ | KeywordClash _ => true
  | _ => false
  end.

(** The arguments of the batch driver with the force flag cleared. *)
Definition without_force (a : args) : args :=
  Args (input_dir a) (output_dir a) (experiment a) (pattern a) false.

(** A first conversion into the sample directory, and the same data set
    again. *)
Definition sample_single_args : Pinknoise.args :=
  Pinknoise.Args ["data"; "a.mat"] ["out"] "a" "ExpD" false.

Definition sample_single_args_again : Pinknoise.args :=
  Pinknoise.Args ["data"; "a.mat"] ["out"] "b" "ExpD" false.

(** ** The insertions of a traversal

    What [flatten_value] does to its two dictionaries, as the list of the
    insertions it attempts, in order. *)

Inductive event :=
| Assign (key : string) (arr : ndarray pyvalue)   (* the string branch: no check *)
| Store (key : string) (arr : ndarray pyvalue)    (* the tail: duplicate check first *)
| ItemFailure.                                    (* [arr.item()] raises *)

Definition run_event (ev : event) (st : fstate) : result fstate :=
  match ev with
  | Assign key arr => Ok (assign key arr st)
  | Store key arr => store key arr st
  | ItemFailure => Raise ItemSizeError
  end.

Definition event_key (ev : event) : option string :=
  match ev with
  | Assign key _ | Store key _ => Some key
  | ItemFailure => None
  end.

Definition is_assign (ev : event) : bool :=
  match ev with Assign _ _ => true | _ => false end.

(** The events of the elements of a list, element [i] under index
    [idx + i]. *)
Definition events_enum {A} (body : nat → A → list event) : nat → list A → list event :=
  fix loop (idx : nat) (l : list A) : list event :=
    match l with
    | [] => []
    | x :: rest => body idx x ++ loop (S idx) rest
    end.

(** The insertions [flatten_value name value] attempts, clause by clause
    as in [flatten_value]. *)
Fixpoint events_of (name : string) (value : pyvalue) {struct value} : list event :=
  match value with
  | PMapping items =>
      mjoin ((λ kv, events_of (sub_name name kv.1) kv.2) <$> items)
  | PStr _ => [Assign name (asarray value)]
  | PSeq elems => events_enum (λ idx elem, events_of (idx_name name idx) elem) 0 elems
  | PArray arr =>
      if is_boxed arr then
        match nd_data arr with
        | [element] =>
            match element with
            | PMapping _ | PSeq _ => events_of name element
            | _ => [Store name (asarray element)]
            end
        | _ => [ItemFailure]
        end
      else [Store name arr]
  | _ => [Store name (asarray value)]
  end.

(** The insertions of the loop of [convert_file] over a loaded record: those
    of its top-level values, the keys with two leading underscores left
    out. *)
Definition record_events (raw : list (string * pyvalue)) : list event :=
  mjoin ((λ kv, if String.prefix "__" kv.1 then [] else events_of kv.1 kv.2) <$> raw).

(** The loaded record without its reserved keys. *)
Definition public_items (raw : list (string * pyvalue)) : list (string * pyvalue) :=
  List.filter (λ kv, negb (String.prefix "__" kv.1)) raw.

(** The last character of a string. *)
Fixpoint last_char (s : string) : option ascii :=
  match s with
  | EmptyString => None
  | String c EmptyString => Some c
  | String _ rest => last_char rest
  end.

(** [key] starts with [name]. *)
Definition extends (name key : string) : Prop := ∃ rest, key = name +:+ rest.

(** Every array in the value holds as many elements as its shape says. *)
Fixpoint well_formed (value : pyvalue) : bool :=
  match value with
  | PMapping items => forallb (λ kv, well_formed kv.2) items
  | PSeq elems => forallb well_formed elems
  | PArray arr =>
      (List.length (nd_data arr) =? nd_size arr) && forallb well_formed (nd_data arr)
  | _ => true
  end.

(** No string is met by the string branch: the value holds strings in
    object arrays of one element only. *)
Fixpoint plain_str_free (value : pyvalue) : bool :=
  match value with
  | PMapping items => forallb (λ kv, plain_str_free kv.2) items
  | PStr _ => false
  | PSeq elems => forallb plain_str_free elems
  | PArray arr =>
      if is_boxed arr then
        match nd_data arr with
        | [element] =>
            match element with
            | PMapping _ | PSeq _ => plain_str_free element
            | _ => true
            end
        | _ => true
        end
      else true
  | _ => true
  end.

(** ** Command-line labels, patterns and writes

    The conditions under which the scripts do with the file system what
    [main] and [convert_file] above do with the map. *)

(** The characters of a file name: any but the separator and NUL. *)
Definition name_char (c : ascii) : bool :=
  negb (Ascii.eqb c "/") && negb (Ascii.eqb c "000").

Fixpoint name_chars (s : string) : bool :=
  match s with
  | EmptyString => true
  | String c rest => name_char c && name_chars rest
  end.

(** A string that [base / s] appends to [base] as one component and that
    [resolve()] leaves in place: a file name other than "." and "..".
    (pathlib drops an empty string and ".", splits at the separators,
    starts again from an absolute string, and [resolve()] cancels ".."
    against the component before it.) *)
Definition proper_component (s : string) : bool :=
  name_chars s
  && negb (String.eqb s "") && negb (String.eqb s ".") && negb (String.eqb s "..").

(** Two stars in a row. *)
Fixpoint has_double_star (s : string) : bool :=
  match s with
  | EmptyString => false
  | String c rest =>
      match rest with
      | EmptyString => false
      | String d _ => Ascii.eqb c "*" && Ascii.eqb d "*" || has_double_star rest
      end
  end.

Fixpoint has_bracket (s : string) : bool :=
  match s with
  | EmptyString => false
  | String c rest => Ascii.eqb c "[" || has_bracket rest
  end.

(** A pattern for which [Path.glob] yields its matches and raises nothing:
    the pattern of one file name, made of plain characters, [*] and [?].
    (An empty pattern, an absolute one, one of "." only and, before
    Python 3.13, one with "**" inside a component make [glob] raise.) *)
Definition glob_pattern (pat : string) : bool :=
  proper_component pat && negb (has_double_star pat) && negb (has_bracket pat).

(** [name.endswith(suffix)] *)
Definition has_suffix (suffix name : string) : bool :=
  (String.length suffix <=? String.length name)
  && String.eqb
       (substring (String.length name - String.length suffix) (String.length suffix) name)
       suffix.

(** [p.is_dir()] *)
Definition is_directory (fs : gmap Path file) (p : Path) : bool :=
  match fs !! p with
  | Some Directory => true
  | _ => false
  end.

(** A file can be written at [p]: [p] is no directory, and the directory
    it goes into is there (the paths of one component go into the
    directory the paths start from). *)
Definition can_write (fs : gmap Path file) (p : Path) : bool :=
  match p with
  | [] => false
  | _ :: _ =>
      negb (is_directory fs p)
      && (bool_decide (removelast p = []) || is_directory fs (removelast p))
  end.

(** The record of [input_path] gives no array the name [allow_pickle].
    [np.savez_compressed(file, **flat)] stores each array of [flat] under
    its key, but for the keys that are parameters of the function itself:
    [file], for which the call raises, and [allow_pickle], which the
    versions of NumPy that have the parameter take for their flag and
    leave out of the archive. *)
Definition stores_every_array (fs : gmap Path file) (input_path : Path) : bool :=
  match load_and_flatten input_path fs with
  | Ok st => negb (bool_decide (is_Some (flat st !! "allow_pickle")))
  | Raise _ => true
  end.

(** * Properties of the flattening routine *)

(** Closes a decidable goal about concrete data by evaluating its decision
    procedure. *)
Ltac by_evaluation := apply (bool_decide_unpack _); vm_compute; exact I.

(** The function defined by recursion on the value is the Python function. *)
Lemma flatten_value_eq name value st :
  flatten_value name value st = flatten_value_body flatten_value name value st.
Proof.
  destruct value as [items|s|elems|b|b|canon repr|tag|arr]; try reflexivity.
  unfold flatten_value_body; cbn [isinstance_Mapping isinstance_str
    isinstance_Sequence isinstance_raw andb negb asarray].
  cbn [flatten_value]. destruct (is_boxed arr); [|reflexivity].
  unfold item. destruct (nd_data arr) as [|element [|]]; try reflexivity.
  destruct element; reflexivity.
Qed.


(** Induction on values that reaches the members of mappings, sequences
    and arrays. *)
Lemma pyvalue_nested_ind (P : pyvalue → Prop)
  (Hmapping : ∀ items, Forall (λ kv, P kv.2) items → P (PMapping items))
  (Hstr : ∀ s, P (PStr s))
  (Hseq : ∀ elems, Forall P elems → P (PSeq elems))
  (Hbytes : ∀ b, P (PBytes b))
  (Hbytearray : ∀ b, P (PByteArray b))
  (Hscalar : ∀ canon repr, P (PScalar canon repr))
  (Hopaque : ∀ tag, P (POpaque tag))
  (Harray : ∀ arr, Forall P (nd_data arr) → P (PArray arr)) :
  ∀ v, P v.
Proof.
  fix IH 1. intros [items|s|elems|b|b|canon repr|tag|arr].
  - apply Hmapping. induction items as [|[k v] items IHitems]; constructor.
    + apply IH.
    + exact IHitems.
  - apply Hstr.
  - apply Hseq. induction elems as [|e elems IHelems]; constructor.
    + apply IH.
    + exact IHelems.
  - apply Hbytes.
  - apply Hbytearray.
  - apply Hscalar.
  - apply Hopaque.
  - apply Harray. destruct arr as [dt sh data]. simpl.
    induction data as [|e data IHdata]; constructor.
    + apply IH.
    + exact IHdata.
Qed.

Section loops.
Context {A St : Type}.

Lemma for_each_nil (body : A → St → result St) st :
  for_each body [] st = Ok st.
Proof. reflexivity. Qed.

Lemma for_each_cons (body : A → St → result St) x rest st :
  for_each body (x :: rest) st = (st' ← body x st; for_each body rest st').
Proof. reflexivity. Qed.

Lemma for_each_enum_cons (body : nat → A → St → result St) idx x rest st :
  for_each_enum body idx (x :: rest) st
  = (st' ← body idx x st; for_each_enum body (S idx) rest st').
Proof. reflexivity. Qed.

(** A property that every round of a loop keeps holds when the loop ends. *)
Lemma for_each_preserves (I : St → Prop) (body : A → St → result St) l :
  Forall (λ x, ∀ st st', I st → body x st = Ok st' → I st') l →
  ∀ st st', I st → for_each body l st = Ok st' → I st'.
Proof.
  induction 1 as [|x rest Hx _ IH]; intros st st' Hst Hrun.
  - rewrite for_each_nil in Hrun. congruence.
  - rewrite for_each_cons in Hrun.
    destruct (body x st) as [st1|e] eqn:Hbody; [|discriminate].
    exact (IH st1 st' (Hx st st1 Hst Hbody) Hrun).
Qed.

Lemma for_each_enum_preserves (I : St → Prop) (body : nat → A → St → result St) l :
  Forall (λ x, ∀ idx st st', I st → body idx x st = Ok st' → I st') l →
  ∀ idx st st', I st → for_each_enum body idx l st = Ok st' → I st'.
Proof.
  induction 1 as [|x rest Hx _ IH]; intros idx st st' Hst Hrun.
  - simpl in Hrun. congruence.
  - rewrite for_each_enum_cons in Hrun.
    destruct (body idx x st) as [st1|e] eqn:Hbody; [|discriminate].
    exact (IH (S idx) st1 st' (Hx idx st st1 Hst Hbody) Hrun).
Qed.

(** The states an enumerating loop goes through: element [i] takes state
    [i] to state [i + 1], under index [idx + i]. *)
Lemma for_each_enum_chain (body : nat → A → St → result St) l :
  ∀ idx st st',
    for_each_enum body idx l st = Ok st' ↔
    ∃ sts : list St,
      List.length sts = S (List.length l) ∧
      sts !! 0 = Some st ∧
      sts !! (List.length l) = Some st' ∧
      ∀ i x s s', l !! i = Some x → sts !! i = Some s → sts !! (S i) = Some s' →
                  body (idx + i) x s = Ok s'.
Proof.
  induction l as [|x rest IH]; intros idx st st'.
  - simpl. split.
    + intros [= <-]. exists [st]. repeat split; try reflexivity.
      intros i y s s' Hy. rewrite lookup_nil in Hy. discriminate.
    + intros ([|s0 [|]] & Hlen & H0 & Hn & _); simplify_eq/=. reflexivity.
  - rewrite for_each_enum_cons. split.
    + destruct (body idx x st) as [st1|e] eqn:Hbody; [|discriminate].
      intros Hrest. apply IH in Hrest as (sts & Hlen & H0 & Hn & Hsteps).
      exists (st :: sts). simpl. repeat split; try assumption.
      * by rewrite Hlen.
      * intros [|i] y s s' Hy Hs Hs'; simplify_eq/=.
        -- by rewrite Nat.add_0_r.
        -- rewrite Nat.add_succ_r. eapply (Hsteps i); eassumption.
    + intros (sts & Hlen & H0 & Hn & Hsteps).
      destruct sts as [|s0 [|s1 sts]]; simplify_eq/=.
      specialize (Hsteps 0 x st s1 eq_refl eq_refl eq_refl) as Hfirst.
      rewrite Nat.add_0_r in Hfirst. rewrite Hfirst. simpl.
      apply IH. exists (s1 :: sts). repeat split; try assumption.
      * simpl. congruence.
      * intros i y s s' Hy Hs Hs'.
        specialize (Hsteps (S i) y s s'). rewrite Nat.add_succ_r in Hsteps.
        by apply Hsteps.
Qed.
End loops.

(** Every entry [flatten_value] makes goes through [assign]: a property of
    the two dictionaries that [assign] keeps is kept by the whole
    traversal. *)
Lemma flatten_value_preserves (I : fstate → Prop) :
  (∀ name arr st, I st → I (assign name arr st)) →
  ∀ value name st st', I st → flatten_value name value st = Ok st' → I st'.
Proof.
  intros Hassign.
  assert (Hstore : ∀ name arr st st', I st → store name arr st = Ok st' → I st').
  { intros name arr st st' Hst. unfold store.
    destruct (flat st !! name); intros [= <-]. by apply Hassign. }
  induction value as [items IH|s|elems IH|b|b|canon repr|tag|arr IH]
    using pyvalue_nested_ind; intros name st st' Hst Hrun;
    try (simpl in Hrun; by eauto).
  - simpl in Hrun. revert st st' Hst Hrun. apply for_each_preserves.
    eapply Forall_impl; [exact IH|]. intros [k v] Hv st st'. apply Hv.
  - simpl in Hrun. injection Hrun as <-. by apply Hassign.
  - simpl in Hrun. revert Hrun. generalize 0. intros idx Hrun.
    revert idx st st' Hst Hrun. apply for_each_enum_preserves.
    eapply Forall_impl; [exact IH|]. intros v Hv idx st st'. apply Hv.
  - simpl in Hrun. destruct (is_boxed arr); [|by eauto].
    destruct (nd_data arr) as [|element [|]]; try discriminate.
    apply Forall_cons in IH as [IHelement _].
    destruct element; by eauto.
Qed.

(** The duplicate check of the tail of [flatten_value]. *)
Lemma store_duplicate name arr st :
  is_Some (flat st !! name) → store name arr st = Raise (DuplicateKey name).
Proof. intros [old Hold]. unfold store. by rewrite Hold. Qed.

Lemma store_fresh name arr st :
  flat st !! name = None → store name arr st = Ok (assign name arr st).
Proof. intros Hnone. unfold store. by rewrite Hnone. Qed.

Lemma append_nonempty_neq (name rest : string) :
  rest ≠ "" → name +:+ rest ≠ name.
Proof.
  intros Hrest. induction name as [|c name IH]; simpl.
  - exact Hrest.
  - intros [= Heq]. by apply IH.
Qed.

(** An index-suffixed key is never the key it extends. *)
Lemma idx_name_neq name idx : idx_name name idx ≠ name.
Proof. unfold idx_name. apply append_nonempty_neq. discriminate. Qed.

(** C2. The tests of [flatten_value] are tried in the order mapping, string,
    sequence, array with the unwrapping of a boxed singleton.  A string
    passes the sequence test as well, and the string test comes first: the
    string is stored under [name] as a zero-dimensional array of a string
    type, and no key [name_idx] is touched. *)
Theorem string_stored_before_sequence_rule :
  ∀ name s st,
    isinstance_Sequence (PStr s) = true ∧
    flatten_value name (PStr s) st
    = Ok (FState
            (<[name := NdArray (DUnicode (Nat.max 1 (String.length s))) [] [PStr s]]>
               (flat st))
            (<[name := ManifestEntry [] ("<U" +:+ pretty (Nat.max 1 (String.length s)))]>
               (shapes st))) ∧
    (∀ st' idx, flatten_value name (PStr s) st = Ok st' →
                flat st' !! idx_name name idx = flat st !! idx_name name idx) ∧
    (∀ value, flatten_value name value st
              = flatten_value_body flatten_value name value st).
Proof.
  intros name s st. split; [reflexivity|]. split; [reflexivity|]. split.
  - intros st' idx [= <-]. simpl.
    apply lookup_insert_ne. intros Heq. by apply (idx_name_neq name idx).
  - intros value. apply flatten_value_eq.
Qed.

(** C3. An object array of one element that holds a mapping is flattened
    exactly as the mapping itself, under the same key. *)
Theorem boxed_mapping_flattens_as_mapping :
  ∀ name arr items st,
    nd_dtype arr = DObject →
    nd_size arr = 1 →
    nd_data arr = [PMapping items] →
    flatten_value name (PArray arr) st = flatten_value name (PMapping items) st.
Proof.
  intros name arr items st Hdt Hsize Hdata.
  rewrite (flatten_value_eq name (PArray arr)). unfold flatten_value_body.
  cbn [isinstance_Mapping isinstance_str isinstance_Sequence isinstance_raw
       andb negb asarray].
  unfold is_boxed, item. rewrite Hdt, Hsize, Hdata.
  rewrite !bool_decide_eq_true_2 by reflexivity. reflexivity.
Qed.

(** A structure boxed in a 1-by-1 object array. *)
Lemma boxed_mapping_flattens_as_mapping_witness :
  flatten_value "s"
    (PArray (NdArray DObject [1; 1] [PMapping [("gain", PScalar "float64" 3)]]))
    fstate_empty
  = flatten_value "s" (PMapping [("gain", PScalar "float64" 3)]) fstate_empty.
Proof.
  apply (boxed_mapping_flattens_as_mapping "s"
           (NdArray DObject [1; 1] [PMapping [("gain", PScalar "float64" 3)]]));
    reflexivity.
Defined.

(** C10. The unwrapping happens once.  When the value converts to an object
    array of one element and that element is neither a mapping, a string
    nor a list, the element is converted with [np.asarray] and that array
    goes to the duplicate check and is stored under [name] as it is, even
    when it is again an object array of one element. *)
Theorem boxed_singleton_unwrapped_once :
  ∀ name value element st,
    isinstance_Mapping value = false →
    isinstance_str value = false →
    isinstance_Sequence value && negb (isinstance_raw value) = false →
    is_boxed (asarray value) = true →
    item (asarray value) = Ok element →
    isinstance_Mapping element = false →
    isinstance_str element = false →
    isinstance_Sequence element && negb (isinstance_raw element) = false →
    flatten_value name value st = store name (asarray element) st ∧
    (flat st !! name = None →
     ∃ st', flatten_value name value st = Ok st' ∧
            flat st' = <[name := asarray element]> (flat st)).
Proof.
  intros name value element st Hmap Hstr Hseq Hboxed Hitem Hemap Hestr Heseq.
  assert (Hrun : flatten_value name value st = store name (asarray element) st).
  { rewrite flatten_value_eq. unfold flatten_value_body.
    rewrite Hmap, Hstr, Hseq. cbv zeta. rewrite Hboxed, Hitem. simpl.
    by rewrite Hemap, Hestr, Heseq. }
  split; [exact Hrun|]. intros Hfresh.
  exists (assign name (asarray element) st). split; [|reflexivity].
  rewrite Hrun. by apply store_fresh.
Qed.

(** A box in a box in a box: only the outer box is removed. *)
Lemma boxed_singleton_unwrapped_once_witness :
  let inner := PArray (NdArray DObject [1] [PMapping [("k", PStr "v")]]) in
  let middle := PArray (NdArray DObject [1] [inner]) in
  let outer := PArray (NdArray DObject [1] [middle]) in
  flatten_value "x" outer fstate_empty
  = store "x" (NdArray DObject [1] [inner]) fstate_empty.
Proof.
  intros inner middle outer.
  apply (boxed_singleton_unwrapped_once "x" outer middle fstate_empty);
    reflexivity.
Defined.

(** Index-suffixed keys of different indices differ. *)
Lemma idx_name_inj name : Inj (=) (=) (idx_name name).
Proof.
  intros i j Heq. unfold idx_name in Heq.
  apply (inj pretty), (inj (String.append "_")), (inj (String.append name)), Heq.
Qed.

(** The loop over a list of numbers, started at index [k] in a state where
    the keys from [k] on are free: every number gets its key, and no other
    key changes. *)
Lemma flatten_scalars_from name elems :
  Forall (λ e, is_scalar e = true) elems →
  ∀ k st,
    (∀ j, k ≤ j → flat st !! idx_name name j = None) →
    ∃ st',
      for_each_enum (λ idx e, flatten_value (idx_name name idx) e) k elems st = Ok st' ∧
      (∀ i e, elems !! i = Some e →
              flat st' !! idx_name name (k + i) = Some (asarray e)) ∧
      (∀ key, (∀ i, i < List.length elems → key ≠ idx_name name (k + i)) →
              flat st' !! key = flat st !! key).
Proof.
  induction 1 as [|e rest He _ IH]; intros k st Hfree.
  - exists st. split; [reflexivity|]. split; [|reflexivity].
    intros i e He. rewrite lookup_nil in He. discriminate.
  - destruct e; try discriminate. rewrite for_each_enum_cons.
    cbn [flatten_value]. rewrite store_fresh by (apply Hfree; lia).
    set (e := PScalar canon repr). set (st1 := assign (idx_name name k) (asarray e) st).
    destruct (IH (S k) st1) as (st' & Hrun & Hnew & Hold).
    { intros j Hj. unfold st1. simpl. rewrite lookup_insert_ne.
      - apply Hfree. lia.
      - intros Heq. apply idx_name_inj in Heq. lia. }
    exists st'. split; [exact Hrun|]. split.
    + intros [|i] e' He'; simplify_eq/=.
      * rewrite Hold.
        -- rewrite Nat.add_0_r. unfold st1. simpl. apply lookup_insert_eq.
        -- intros i _ Heq. apply idx_name_inj in Heq. lia.
      * rewrite Nat.add_succ_r. by apply Hnew.
    + intros key Hkey. rewrite Hold.
      * unfold st1. simpl. apply lookup_insert_ne. intros Heq.
        apply (Hkey 0); [simpl; lia|]. by rewrite Nat.add_0_r.
      * intros i Hi. specialize (Hkey (S i)). rewrite Nat.add_succ_r in Hkey.
        apply Hkey. simpl. lia.
Qed.

(** C5. A list is flattened element by element, element [i] (counted from
    zero) under the key [name_i]: a run over the list is a chain of runs
    over its elements.  A list of numbers flattened into empty dictionaries
    gives exactly the keys [name_0] ... [name_(n-1)], each holding its
    number; for three numbers under "x": [x_0], [x_1], [x_2]. *)
Theorem sequence_elements_get_index_keys :
  (∀ name elems st st',
     flatten_value name (PSeq elems) st = Ok st' ↔
     ∃ sts : list fstate,
       List.length sts = S (List.length elems) ∧
       sts !! 0 = Some st ∧
       sts !! (List.length elems) = Some st' ∧
       ∀ i elem s s',
         elems !! i = Some elem → sts !! i = Some s → sts !! (S i) = Some s' →
         flatten_value (name +:+ "_" +:+ pretty i) elem s = Ok s') ∧
  (∀ name elems,
     Forall (λ e, is_scalar e = true) elems →
     ∃ st',
       flatten_value name (PSeq elems) fstate_empty = Ok st' ∧
       dom (flat st') = list_to_set (idx_name name <$> seq 0 (List.length elems)) ∧
       ∀ i e, elems !! i = Some e → flat st' !! idx_name name i = Some (asarray e)) ∧
  (∀ c0 r0 c1 r1 c2 r2,
     ∃ st',
       flatten_value "x" (PSeq [PScalar c0 r0; PScalar c1 r1; PScalar c2 r2])
         fstate_empty = Ok st' ∧
       dom (flat st') = {[ "x_0"; "x_1"; "x_2" ]}).
Proof.
  assert (Hscalars : ∀ name elems,
     Forall (λ e, is_scalar e = true) elems →
     ∃ st',
       flatten_value name (PSeq elems) fstate_empty = Ok st' ∧
       dom (flat st') = list_to_set (idx_name name <$> seq 0 (List.length elems)) ∧
       ∀ i e, elems !! i = Some e → flat st' !! idx_name name i = Some (asarray e)).
  { intros name elems Hnum.
    destruct (flatten_scalars_from name elems Hnum 0 fstate_empty)
      as (st' & Hrun & Hnew & Hold); [intros; apply lookup_empty|].
    cbn [Nat.add] in Hnew, Hold.
    exists st'. split; [exact Hrun|]. split; [|exact Hnew].
    apply set_eq. intros key. rewrite elem_of_dom, elem_of_list_to_set, list_elem_of_fmap.
    split.
    - intros Hsome.
      destruct (decide (key ∈ idx_name name <$> seq 0 (List.length elems)))
        as [Hin|Hout]; [by apply list_elem_of_fmap in Hin|].
      rewrite Hold in Hsome.
      + simpl in Hsome. rewrite lookup_empty in Hsome. by destruct Hsome.
      + intros i Hi ->. apply Hout, list_elem_of_fmap. exists i. split; [done|].
        apply elem_of_seq. lia.
    - intros (i & -> & Hi). apply elem_of_seq in Hi.
      destruct (lookup_lt_is_Some_2 elems i) as [e He]; [lia|].
      rewrite (Hnew i e He). by eexists. }
  split; [|split; [exact Hscalars|]].
  - intros name elems st st'. cbn [flatten_value].
    apply (for_each_enum_chain (λ idx elem, flatten_value (idx_name name idx) elem)).
  - intros c0 r0 c1 r1 c2 r2.
    destruct (Hscalars "x" [PScalar c0 r0; PScalar c1 r1; PScalar c2 r2])
      as (st' & Hrun & Hdom & _); [by repeat constructor|].
    exists st'. split; [exact Hrun|]. rewrite Hdom. vm_compute. reflexivity.
Qed.

(** Two numbers under "x". *)
Lemma sequence_elements_get_index_keys_witness :
  ∃ st',
    flatten_value "x" (PSeq [PScalar "float64" 1; PScalar "float64" 2]) fstate_empty
    = Ok st' ∧
    dom (flat st') = list_to_set (idx_name "x" <$> seq 0 2) ∧
    ∀ i e, [PScalar "float64" 1; PScalar "float64" 2] !! i = Some e →
           flat st' !! idx_name "x" i = Some (asarray e).
Proof.
  apply (proj1 (proj2 sequence_elements_get_index_keys) "x").
  repeat constructor.
Defined.

(** * Properties of the single-file conversion *)

Lemma consistent_empty : consistent fstate_empty.
Proof.
  split.
  - simpl. by rewrite !dom_empty_L.
  - intros key arr Hkey. simpl in Hkey. by rewrite lookup_empty in Hkey.
Qed.

Lemma consistent_assign name arr st :
  consistent st → consistent (assign name arr st).
Proof.
  intros [Hdom Hentries]. split; simpl.
  - by rewrite !dom_insert_L, Hdom.
  - intros key arr'. destruct (decide (name = key)) as [->|Hne].
    + rewrite !lookup_insert_eq. by intros [= <-].
    + rewrite !lookup_insert_ne by done. apply Hentries.
Qed.

Lemma flatten_record_preserves (I : fstate → Prop) :
  (∀ name arr st, I st → I (assign name arr st)) →
  I fstate_empty →
  ∀ raw st, flatten_record raw = Ok st → I st.
Proof.
  intros Hassign Hempty raw st. unfold flatten_record.
  apply for_each_preserves; [|exact Hempty].
  apply Forall_forall. intros [key value] _ st0 st1 Hst0. simpl.
  destruct (String.prefix "__" key).
  - by intros [= <-].
  - by apply flatten_value_preserves.
Qed.

(** What a successful [convert_file] leaves behind. *)
Lemma convert_file_ok now input_path output_path metadata_path fs fs' shp :
  convert_file now input_path output_path metadata_path fs = (fs', Ok shp) →
  ∃ raw st,
    fs !! input_path = Some (MatFile raw) ∧
    flatten_record raw = Ok st ∧
    size (flat st) ≠ 0 ∧
    flat st !! "file" = None ∧
    shp = shapes st ∧
    fs' = <[metadata_path := JsonFile (Manifest input_path output_path now (shapes st))]>
            (<[output_path := NpzFile (flat st)]> fs).
Proof.
  unfold convert_file, load_and_flatten, loadmat, savez_compressed.
  destruct (fs !! input_path) as [[raw| | | |]|]; simpl; try (intros [= _ ?]; done).
  destruct (flatten_record raw) as [st|e] eqn:Hflat; simpl; [|intros [= _ ?]; done].
  case_bool_decide as Hsize; [intros [= _ ?]; done|].
  case_bool_decide as Hclash; intros [= <- <-].
  exists raw, st. repeat split; try done.
  by apply eq_None_not_Some.
Qed.

(** C4. The shape/dtype dictionary and the flat dictionary stay consistent:
    the same keys, and under each key the shape and the dtype of the array
    the flat dictionary holds there.  Every call of [flatten_value] that
    returns keeps the consistency, so that it holds after the traversal of
    a whole record, for the two dictionaries that [convert_file] hands to
    the archive and to the manifest. *)
Theorem manifest_agrees_with_archive :
  (∀ name value st st',
     consistent st → flatten_value name value st = Ok st' → consistent st') ∧
  (∀ raw st, flatten_record raw = Ok st → consistent st).
Proof.
  split.
  - intros name value st st'. apply flatten_value_preserves.
    intros. by apply consistent_assign.
  - apply flatten_record_preserves; [|exact consistent_empty].
    intros. by apply consistent_assign.
Qed.

(** A structure of a number and a string, flattened into empty
    dictionaries. *)
Lemma manifest_agrees_with_archive_witness :
  ∃ st',
    flatten_value "cal" (PMapping [("fs", PScalar "float64" 48000); ("unit", PStr "V")])
      fstate_empty = Ok st' ∧
    consistent st'.
Proof.
  eexists. split; [reflexivity|].
  apply (proj1 manifest_agrees_with_archive "cal"
           (PMapping [("fs", PScalar "float64" 48000); ("unit", PStr "V")])
           fstate_empty).
  - exact consistent_empty.
  - reflexivity.
Defined.

Lemma flatten_record_private raw :
  Forall (λ kv, String.prefix "__" kv.1 = true) raw →
  flatten_record raw = Ok fstate_empty.
Proof.
  unfold flatten_record. intros Hprivate. generalize fstate_empty.
  induction Hprivate as [|[key value] rest Hkey _ IH]; intros st.
  - reflexivity.
  - rewrite for_each_cons. simpl in Hkey |- *. rewrite Hkey. apply IH.
Qed.

(** C6. When every top-level key of the loaded record starts with two
    underscores, and whenever the traversal ends with an empty flat
    dictionary, [convert_file] raises its empty-result error and leaves the
    file system as it was: no archive, no manifest. *)
Theorem empty_result_fails_without_output :
  ∀ now input_path output_path metadata_path fs raw,
    fs !! input_path = Some (MatFile raw) →
    Forall (λ kv, String.prefix "__" kv.1 = true) raw
    ∨ (∃ st, flatten_record raw = Ok st ∧ flat st = ∅) →
    convert_file now input_path output_path metadata_path fs
    = (fs, Raise (NoUsableArrays input_path)).
Proof.
  intros now input_path output_path metadata_path fs raw Hfile Hempty.
  assert (∃ st, flatten_record raw = Ok st ∧ flat st = ∅) as (st & Hrun & Hflat).
  { destruct Hempty as [Hprivate|Hempty]; [|exact Hempty].
    exists fstate_empty. split; [by apply flatten_record_private|reflexivity]. }
  unfold convert_file, load_and_flatten, loadmat. rewrite Hfile. simpl.
  rewrite Hrun. simpl. rewrite Hflat, map_size_empty.
  by rewrite bool_decide_eq_true_2.
Qed.

(** A file that holds the loader's own keys only. *)
Lemma empty_result_fails_without_output_witness :
  let raw := [("__header__", PBytes "MATLAB 5.0 MAT-file");
              ("__version__", PStr "1.0");
              ("__globals__", PSeq [])] in
  let fs : gmap Path file := {[ ["in"; "empty.mat"] := MatFile raw ]} in
  convert_file "2024-01-01T00:00:00+00:00" ["in"; "empty.mat"]
    ["out"; "empty.npz"] ["out"; "empty.json"] fs
  = (fs, Raise (NoUsableArrays ["in"; "empty.mat"])).
Proof.
  intros raw fs.
  apply (empty_result_fails_without_output _ _ _ _ fs raw).
  - reflexivity.
  - left. repeat constructor.
Defined.

(** * Properties of the batch driver *)

(** ** The order of paths *)

Lemma string_compare_refl (a : string) : String.compare a a = Eq.
Proof. by apply String_as_OT.cmp_eq. Qed.

Lemma string_compare_lt_trans (a b c : string) :
  String.compare a b = Lt → String.compare b c = Lt → String.compare a c = Lt.
Proof.
  intros Hab Hbc. apply String_as_OT.cmp_lt.
  eapply String_as_OT.lt_trans; apply String_as_OT.cmp_lt; eassumption.
Qed.

Lemma path_compare_eq (p q : Path) : path_compare p q = Eq → p = q.
Proof.
  revert q. induction p as [|a p IH]; intros [|b q]; simpl; try done.
  destruct (String.compare a b) eqn:Hab; try done.
  apply String.compare_eq_iff in Hab as ->. intros Hpq. f_equal. by apply IH.
Qed.

Lemma path_compare_antisym (p q : Path) :
  path_compare q p = CompOpp (path_compare p q).
Proof.
  revert q. induction p as [|a p IH]; intros [|b q]; simpl; try done.
  rewrite (String.compare_antisym a b).
  destruct (String.compare b a); simpl; auto.
Qed.

Lemma path_compare_lt_trans (p q r : Path) :
  path_compare p q = Lt → path_compare q r = Lt → path_compare p r = Lt.
Proof.
  revert q r. induction p as [|a p IH]; intros [|b q] [|c r]; simpl; try done.
  destruct (String.compare a b) eqn:Hab; try done;
    destruct (String.compare b c) eqn:Hbc; try done.
  - apply String.compare_eq_iff in Hab as ->. rewrite Hbc. apply IH.
  - apply String.compare_eq_iff in Hab as ->. by rewrite Hbc.
  - apply String.compare_eq_iff in Hbc as <-. by rewrite Hab.
  - by rewrite (string_compare_lt_trans a b c).
Qed.

(** A common directory does not take part in the comparison. *)
Lemma path_compare_app (dir p q : Path) :
  path_compare (dir ++ p) (dir ++ q) = path_compare p q.
Proof.
  induction dir as [|a dir IH]; simpl; [done|].
  by rewrite string_compare_refl.
Qed.

Global Instance path_le_total : Total path_le.
Proof.
  intros p q. unfold path_le. rewrite (path_compare_antisym p q).
  destruct (path_compare p q); simpl; [left|left|right]; done.
Qed.

Global Instance path_le_antisym : AntiSymm (=) path_le.
Proof.
  intros p q Hpq Hqp. unfold path_le in *. rewrite (path_compare_antisym p q) in Hqp.
  destruct (path_compare p q) eqn:Hcmp; simpl in *; try done.
  by apply path_compare_eq.
Qed.

Global Instance path_le_trans : Transitive path_le.
Proof.
  intros p q r Hpq Hqr. unfold path_le in *.
  destruct (path_compare p q) eqn:Hcmp1; try done.
  - by apply path_compare_eq in Hcmp1 as ->.
  - destruct (path_compare q r) eqn:Hcmp2; try done.
    + apply path_compare_eq in Hcmp2 as <-. by rewrite Hcmp1.
    + by rewrite (path_compare_lt_trans p q r).
Qed.

(** [sorted] gives the ascending rearrangement, and there is only one. *)
Lemma sorted_ascending (paths : list Path) : StronglySorted path_le (sorted paths).
Proof. apply StronglySorted_merge_sort; apply _. Qed.

Lemma sorted_permutation (paths : list Path) : sorted paths ≡ₚ paths.
Proof. apply merge_sort_Permutation. Qed.

Lemma sorted_unique (paths ascending : list Path) :
  StronglySorted path_le ascending → ascending ≡ₚ paths → sorted paths = ascending.
Proof.
  intros Hasc Hperm. apply (StronglySorted_unique path_le).
  - apply sorted_ascending.
  - exact Hasc.
  - by rewrite sorted_permutation, Hperm.
Qed.

Lemma sorted_enumeration_order (paths paths' : list Path) :
  paths ≡ₚ paths' → sorted paths = sorted paths'.
Proof.
  intros Hperm. apply sorted_unique; [apply sorted_ascending|].
  by rewrite sorted_permutation, Hperm.
Qed.

(** ** The loop *)

Lemma main_loop_cons now force dest file_path rest b :
  main_loop now force dest (file_path :: rest) b
  = match main_step now force dest file_path b with
    | (b', Ok _) => main_loop now force dest rest b'
    | (b', Raise e) => (b', Raise e)
    end.
Proof. reflexivity. Qed.

(** One round of the loop reports on its file, unless it raises. *)
Lemma main_step_reported now force dest file_path b b' r :
  main_step now force dest file_path b = (b', r) →
  match r with
  | Ok _ => reported (b_printed b') = reported (b_printed b) ++ [path_stem file_path]
            ∧ b_converted b' + b_skipped b' = S (b_converted b + b_skipped b)
  | Raise _ => reported (b_printed b') = reported (b_printed b)
               ∧ b_converted b' + b_skipped b' = b_converted b + b_skipped b
  end.
Proof.
  unfold main_step.
  destruct (negb force && _).
  - intros [= <- <-]. simpl. unfold reported. rewrite omap_app. split; [done|lia].
  - destruct (convert_file _ _ _ _ _) as [fs' [shp|e]]; intros [= <- <-]; simpl.
    + unfold reported. rewrite omap_app. split; [done|lia].
    + done.
Qed.

(** The loop reports on the files in the order of the list, up to the file
    at which it raises, and counts each file it reports on once. *)
Lemma main_loop_reported now force dest files :
  ∀ b b' r,
    main_loop now force dest files b = (b', r) →
    ∃ done rest,
      files = done ++ rest ∧
      reported (b_printed b') = reported (b_printed b) ++ (path_stem <$> done) ∧
      b_converted b' + b_skipped b' = b_converted b + b_skipped b + List.length done ∧
      (r = Ok () → rest = []).
Proof.
  induction files as [|file_path files IH]; intros b b' r Hrun.
  - injection Hrun as <- <-. exists [], []. simpl. rewrite app_nil_r.
    repeat split; try done; lia.
  - rewrite main_loop_cons in Hrun.
    destruct (main_step now force dest file_path b) as [b1 [[]|e]] eqn:Hstep;
      apply main_step_reported in Hstep.
    + destruct Hstep as [Hrep Hcount].
      apply IH in Hrun as (done & rest & -> & Hrep' & Hcount' & Hrest).
      exists (file_path :: done), rest. simpl.
      split; [done|]. split; [|split; [lia|done]].
      by rewrite Hrep', Hrep, <- app_assoc.
    + destruct Hstep as [Hrep Hcount].
      injection Hrun as <- <-. exists [], (file_path :: files). simpl.
      rewrite app_nil_r. repeat split; try done; lia.
Qed.

(** C8. The driver goes through the matched files in ascending order of
    their paths (the order of pathlib: component by component), whatever the
    order in which the file system lists them: the outcome of [main] does
    not depend on that order, the files are visited in the one ascending
    rearrangement of the matches, and the lines printed report on the data
    sets in that order (all of them when the run completes).  The files
    [b.mat], [a.mat], [c.mat] of one directory are visited as [a.mat],
    [b.mat], [c.mat]. *)
Theorem batch_visits_files_in_sorted_order :
  (∀ a globbed globbed' now fs,
     globbed ≡ₚ globbed' → main a globbed now fs = main a globbed' now fs) ∧
  (∀ globbed, StronglySorted path_le (sorted globbed) ∧ sorted globbed ≡ₚ globbed) ∧
  (∀ a globbed now fs fs' printed r,
     main a globbed now fs = (fs', printed, r) →
     ∃ unreached,
       path_stem <$> sorted globbed = reported printed ++ unreached ∧
       (r = Ok () → unreached = [])) ∧
  (∀ dir, sorted [dir ++ ["b.mat"]; dir ++ ["a.mat"]; dir ++ ["c.mat"]]
          = [dir ++ ["a.mat"]; dir ++ ["b.mat"]; dir ++ ["c.mat"]]).
Proof.
  split; [|split; [|split]].
  - intros a globbed globbed' now fs Hperm. unfold main.
    by rewrite (sorted_enumeration_order globbed globbed' Hperm).
  - intros globbed. split; [apply sorted_ascending|apply sorted_permutation].
  - intros a globbed now fs fs' printed r. unfold main.
    destruct (negb (path_exists (input_dir a) fs)).
    { intros [= <- <- <-]. exists (path_stem <$> sorted globbed). by split. }
    destruct (sorted globbed) as [|file_path files] eqn:Hfiles.
    { intros [= <- <- <-]. exists []. by split. }
    destruct (mkdir_parents _ fs) as [fs1 [[]|e]].
    2:{ intros [= <- <- <-]. exists (path_stem <$> file_path :: files). by split. }
    destruct (main_loop _ _ _ _ _) as [b [[]|e]] eqn:Hloop;
      apply main_loop_reported in Hloop as (done & rest & Hsplit & Hrep & _ & Hrest);
      simpl in Hrep; intros [= <- <- <-].
    + rewrite (Hrest eq_refl), app_nil_r in Hsplit. exists []. split; [|done].
      rewrite Hsplit. unfold reported in *. rewrite omap_app, Hrep. simpl.
      by rewrite !app_nil_r.
    + exists (path_stem <$> rest). split; [|done].
      by rewrite Hrep, Hsplit, fmap_app.
  - intros dir. apply sorted_unique.
    + assert (Hab : path_le (dir ++ ["a.mat"]) (dir ++ ["b.mat"]))
        by (unfold path_le; by rewrite path_compare_app).
      assert (Hac : path_le (dir ++ ["a.mat"]) (dir ++ ["c.mat"]))
        by (unfold path_le; by rewrite path_compare_app).
      assert (Hbc : path_le (dir ++ ["b.mat"]) (dir ++ ["c.mat"]))
        by (unfold path_le; by rewrite path_compare_app).
      repeat constructor; assumption.
    + apply perm_swap.
Qed.

(** The sample directory listed in two orders: the same run. *)
Lemma batch_visits_files_in_sorted_order_witness :
  main sample_args sample_globbed (λ _, "2024-01-01T00:00:00+00:00") sample_fs
  = main sample_args [["data"; "a.mat"]; ["data"; "b.mat"]; ["data"; "c.mat"]]
      (λ _, "2024-01-01T00:00:00+00:00") sample_fs.
Proof.
  apply (proj1 batch_visits_files_in_sorted_order). apply perm_swap.
Defined.

(** ** Skipping and counting *)




Lemma path_exists_ext (p : Path) (fs fs' : gmap Path file) :
  fs' !! p = fs !! p → path_exists p fs' = path_exists p fs.
Proof. unfold path_exists. by intros ->. Qed.



(** The destinations of a file lie directly in the destination directory. *)
Lemma output_path_length dest f : List.length (output_path_of dest f) = S (List.length dest).
Proof. unfold output_path_of, joinpath. rewrite length_app. simpl. lia. Qed.

Lemma metadata_path_length dest f :
  List.length (metadata_path_of dest f) = S (List.length dest).
Proof.
  unfold metadata_path_of, with_suffix, output_path_of, joinpath.
  rewrite removelast_last, length_app. simpl. lia.
Qed.

Lemma ancestors_from_length base p d :
  d ∈ ancestors_from base p → List.length d ≤ List.length base + List.length p.
Proof.
  revert base. induction p as [|c p IH]; intros base; simpl.
  - by intros ?%elem_of_nil.
  - intros [->|Hin]%elem_of_cons.
    + rewrite length_app. simpl. lia.
    + apply IH in Hin. rewrite length_app in Hin. simpl in Hin. lia.
Qed.

(** [mkdir] leaves alone every path that is there, and every path it was
    not asked to make. *)
Lemma mkdir_each_lookup dirs :
  ∀ fs fs1 r p,
    mkdir_each dirs fs = (fs1, r) →
    p ∉ dirs ∨ is_Some (fs !! p) →
    fs1 !! p = fs !! p.
Proof.
  induction dirs as [|d dirs IH]; intros fs fs1 r p; simpl.
  - by intros [= <- _].
  - destruct (fs !! d) as [[]|] eqn:Hd; try by intros [= <- _].
    + intros Hrun Hp. apply (IH _ _ _ _ Hrun).
      destruct Hp as [Hp|Hp]; [left|by right].
      intros Hin. apply Hp, elem_of_cons. by right.
    + intros Hrun Hp. rewrite (IH _ _ _ p Hrun).
      * apply lookup_insert_ne. intros ->. destruct Hp as [Hp|[x Hp]]; [|congruence].
        apply Hp, elem_of_cons. by left.
      * destruct Hp as [Hp|Hp]; [left|right].
        { intros Hin. apply Hp, elem_of_cons. by right. }
        destruct (decide (d = p)) as [->|Hne].
        -- destruct Hp as [x Hx]. congruence.
        -- by rewrite lookup_insert_ne.
Qed.




Lemma batch_targets_cons dest f files :
  batch_targets dest (f :: files)
  = output_path_of dest f :: metadata_path_of dest f :: batch_targets dest files.
Proof. reflexivity. Qed.


(** A conversion changes the file system at its two destinations only. *)
Lemma convert_file_lookup now input_path output_path metadata_path fs fs' r p :
  convert_file now input_path output_path metadata_path fs = (fs', r) →
  p ≠ output_path → p ≠ metadata_path →
  fs' !! p = fs !! p.
Proof.
  unfold convert_file, savez_compressed.
  destruct (load_and_flatten input_path fs) as [st|e]; [|by intros [= <- _]].
  case_bool_decide; intros [= <- _] Hout Hmeta; [done|].
  by rewrite !lookup_insert_ne.
Qed.




Lemma batch_targets_permutation dest (l l' : list Path) :
  l ≡ₚ l' → batch_targets dest l ≡ₚ batch_targets dest l'.
Proof. unfold batch_targets. by intros ->. Qed.





(** * Colliding keys *)

(** A string boxed in an object array reaches the duplicate check: the
    collision is detected. *)
Lemma boxed_string_collision_detected :
  flatten_record colliding_record_boxed = Raise (DuplicateKey "a_b").
Proof. reflexivity. Qed.

(** So does any value that is stored by the tail of [flatten_value], a
    number for one: with the two variables in the other order the string
    comes first and the number collides with it. *)
Lemma number_collision_detected :
  flatten_record [("a", PMapping [("b", PStr "late")]); ("a_b", PScalar "float64" 1)]
  = Raise (DuplicateKey "a_b").
Proof. reflexivity. Qed.

(** C1 (the code departs from it). A string met directly by the traversal
    is assigned without the duplicate check: in [colliding_record] the
    field [a.b] silently replaces the variable [a_b], no duplicate-key error
    is raised, and [convert_file] writes an archive and a manifest that hold
    the string only. *)
Theorem string_collision_overwrites_silently :
  let fs : gmap Path file := {[ ["in"; "rec.mat"] := MatFile colliding_record ]} in
  flatten_value "a_b" (PStr "late") (assign "a_b" (asarray (PScalar "float64" 1)) fstate_empty)
  = Ok (assign "a_b" (asarray (PStr "late")) fstate_empty) ∧
  ∃ fs',
    convert_file "2024-01-01T00:00:00+00:00" ["in"; "rec.mat"]
      ["out"; "rec.npz"] ["out"; "rec.json"] fs
    = (fs', Ok {[ "a_b" := ManifestEntry [] "<U4" ]}) ∧
    fs' !! ["out"; "rec.npz"]
    = Some (NpzFile {[ "a_b" := NdArray (DUnicode 4) [] [PStr "late"] ]}).
Proof.
  intros fs. split.
  - cbn [flatten_value]. unfold assign. cbn [flat shapes fstate_empty].
    by rewrite !insert_insert_eq.
  - eexists. split; reflexivity.
Qed.

(** * Determinism of the flattening routine *)

(** Every run ends in the outcome [flatten_value] computes. *)
Lemma runs_sound :
  (∀ name value st r, flatten_run name value st r → r = flatten_value name value st) ∧
  (∀ name items st r,
     items_run name items st r →
     r = for_each (λ kv, flatten_value (sub_name name kv.1) kv.2) items st) ∧
  (∀ name idx elems st r,
     elems_run name idx elems st r →
     r = for_each_enum (λ i elem, flatten_value (idx_name name i) elem) idx elems st).
Proof.
  assert (Hterminal : ∀ rec name value st,
    is_terminal value →
    flatten_value_body rec name value st
    = let arr := asarray value in
      if is_boxed arr then
        element ← item arr;
        if isinstance_Mapping element then rec name element st
        else if isinstance_str element then store name (asarray element) st
        else if isinstance_Sequence element && negb (isinstance_raw element)
        then rec name (to_list element) st
        else store name (asarray element) st
      else store name arr st).
  { intros rec name value st (Hmap & Hstr & Hseq). unfold flatten_value_body.
    by rewrite Hmap, Hstr, Hseq. }
  apply runs_mutind.
  - intros name value st r Hmap _ ->. rewrite flatten_value_eq.
    unfold flatten_value_body. by rewrite Hmap.
  - intros name value st Hmap Hstr. rewrite flatten_value_eq.
    unfold flatten_value_body. by rewrite Hmap, Hstr.
  - intros name value st r Hmap Hstr Hseq _ ->. rewrite flatten_value_eq.
    unfold flatten_value_body. by rewrite Hmap, Hstr, Hseq.
  - intros name value st Hterm Hbox. rewrite flatten_value_eq, Hterminal by done.
    cbv zeta. by rewrite Hbox.
  - intros name value st e Hterm Hbox Hitem.
    rewrite flatten_value_eq, Hterminal by done. cbv zeta. by rewrite Hbox, Hitem.
  - intros name value element st r Hterm Hbox Hitem Hmap _ ->.
    rewrite (flatten_value_eq name value), Hterminal by done. cbv zeta.
    rewrite Hbox, Hitem. simpl. by rewrite Hmap.
  - intros name value element st Hterm Hbox Hitem Hmap Hstr.
    rewrite flatten_value_eq, Hterminal by done. cbv zeta.
    rewrite Hbox, Hitem. simpl. by rewrite Hmap, Hstr.
  - intros name value element st r Hterm Hbox Hitem Hmap Hstr Hseq _ ->.
    rewrite (flatten_value_eq name value), Hterminal by done. cbv zeta.
    rewrite Hbox, Hitem. simpl. by rewrite Hmap, Hstr, Hseq.
  - intros name value element st Hterm Hbox Hitem (Hmap & Hstr & Hseq).
    rewrite flatten_value_eq, Hterminal by done. cbv zeta.
    rewrite Hbox, Hitem. simpl. by rewrite Hmap, Hstr, Hseq.
  - done.
  - intros name sub_key sub_val rest st e _ Hrun. rewrite for_each_cons. simpl.
    by rewrite <- Hrun.
  - intros name sub_key sub_val rest st st' r _ Hrun _ ->. rewrite for_each_cons. simpl.
    by rewrite <- Hrun.
  - done.
  - intros name idx elem rest st e _ Hrun. rewrite for_each_enum_cons.
    by rewrite <- Hrun.
  - intros name idx elem rest st st' r _ Hrun _ ->. rewrite for_each_enum_cons.
    by rewrite <- Hrun.
Qed.

Lemma items_run_complete name items :
  Forall (λ kv : string * pyvalue,
            ∀ name st, flatten_run name kv.2 st (flatten_value name kv.2 st)) items →
  ∀ st,
    items_run name items st
      (for_each (λ kv, flatten_value (sub_name name kv.1) kv.2) items st).
Proof.
  induction 1 as [|[sub_key sub_val] rest Hhead _ IH]; intros st.
  - constructor.
  - rewrite for_each_cons. simpl in Hhead |- *.
    specialize (Hhead (sub_name name sub_key) st).
    destruct (flatten_value (sub_name name sub_key) sub_val st) as [st'|e]; simpl.
    + eapply items_next; [exact Hhead|apply IH].
    + by apply items_raise.
Qed.

Lemma elems_run_complete name elems :
  Forall (λ elem, ∀ name st, flatten_run name elem st (flatten_value name elem st)) elems →
  ∀ idx st,
    elems_run name idx elems st
      (for_each_enum (λ i elem, flatten_value (idx_name name i) elem) idx elems st).
Proof.
  induction 1 as [|elem rest Hhead _ IH]; intros idx st.
  - constructor.
  - rewrite for_each_enum_cons. specialize (Hhead (idx_name name idx) st).
    destruct (flatten_value (idx_name name idx) elem st) as [st'|e]; simpl.
    + eapply elems_next; [exact Hhead|apply IH].
    + by apply elems_raise.
Qed.

(** Every call has a run: the traversal always ends, with the outcome
    [flatten_value] computes. *)
Lemma runs_complete value :
  ∀ name st, flatten_run name value st (flatten_value name value st).
Proof.
  induction value as [items IH|s|elems IH|b|b|canon repr|tag|arr IH]
    using pyvalue_nested_ind; intros name st.
  - apply run_mapping; [done|]. by apply items_run_complete.
  - by apply run_str.
  - apply run_sequence; [done..|]. by apply elems_run_complete.
  - by apply run_plain.
  - by apply run_plain.
  - by apply run_plain.
  - by apply (run_boxed_other name (POpaque tag) (POpaque tag)).
  - cbn [flatten_value]. destruct (is_boxed arr) eqn:Hbox; [|by apply run_plain].
    unfold item in *.
    destruct (nd_data arr) as [|element [|another rest]] eqn:Hdata.
    + apply run_item_error; [done..|]. unfold item. simpl. by rewrite Hdata.
    + assert (Hitem : item (asarray (PArray arr)) = Ok element)
        by (unfold item; simpl; by rewrite Hdata).
      apply Forall_cons in IH as [IHelement _].
      destruct element as [items|s|elems|b|b|canon repr|tag|inner].
      * by eapply run_boxed_mapping.
      * by eapply run_boxed_str.
      * eapply run_boxed_sequence; [done..|]. apply IHelement.
      * by eapply run_boxed_other.
      * by eapply run_boxed_other.
      * by eapply run_boxed_other.
      * by eapply run_boxed_other.
      * by eapply run_boxed_other.
    + apply run_item_error; [done..|]. unfold item. simpl. by rewrite Hdata.
Qed.

Lemma record_run_sound raw st r :
  record_run raw st r →
  r = for_each (λ kv st, if String.prefix "__" kv.1 then Ok st
                         else flatten_value kv.1 kv.2 st) raw st.
Proof.
  induction 1 as [st|key value rest st r Hkey _ IH|key value rest st e Hkey Hrun
                 |key value rest st st' r Hkey Hrun _ IH];
    rewrite ?for_each_cons; simpl; rewrite ?Hkey; simpl.
  - done.
  - exact IH.
  - apply (proj1 runs_sound) in Hrun. by rewrite <- Hrun.
  - apply (proj1 runs_sound) in Hrun. by rewrite <- Hrun.
Qed.

Lemma record_run_complete raw :
  ∀ st, record_run raw st
          (for_each (λ kv st, if String.prefix "__" kv.1 then Ok st
                              else flatten_value kv.1 kv.2 st) raw st).
Proof.
  induction raw as [|[key value] rest IH]; intros st.
  - constructor.
  - rewrite for_each_cons. simpl.
    destruct (String.prefix "__" key) eqn:Hkey; simpl.
    + by apply record_skip.
    + assert (Hrun := runs_complete value key st).
      destruct (flatten_value key value st) as [st'|e]; simpl.
      * by eapply record_next.
      * by apply record_raise.
Qed.

(** C9. Flattening is deterministic.  Every call of the routine has a run,
    and two runs on the same value, under the same key and from the same
    dictionaries, end in the same outcome: when they succeed, the two flat
    dictionaries have the same keys and the same arrays, and the two
    shape/dtype dictionaries are the same.  So it is for the traversal of a
    whole record from empty dictionaries. *)
Theorem flattening_is_deterministic :
  (∀ name value st, ∃ r, flatten_run name value st r) ∧
  (∀ name value st r1 r2,
     flatten_run name value st r1 →
     flatten_run name value st r2 →
     r1 = r2 ∧
     ∀ st1 st2,
       r1 = Ok st1 → r2 = Ok st2 →
       dom (flat st1) = dom (flat st2) ∧ flat st1 = flat st2 ∧ shapes st1 = shapes st2) ∧
  (∀ raw, ∃ r, record_run raw fstate_empty r) ∧
  (∀ raw r1 r2,
     record_run raw fstate_empty r1 →
     record_run raw fstate_empty r2 →
     r1 = r2 ∧
     ∀ st1 st2,
       r1 = Ok st1 → r2 = Ok st2 →
       dom (flat st1) = dom (flat st2) ∧ flat st1 = flat st2 ∧ shapes st1 = shapes st2).
Proof.
  split; [|split; [|split]].
  - intros name value st. eexists. apply runs_complete.
  - intros name value st r1 r2 Hrun1 Hrun2.
    apply (proj1 runs_sound) in Hrun1, Hrun2. subst r1 r2.
    split; [reflexivity|]. intros st1 st2 -> [= ->]. by repeat split.
  - intros raw. eexists. apply record_run_complete.
  - intros raw r1 r2 Hrun1 Hrun2.
    apply record_run_sound in Hrun1, Hrun2. subst r1 r2.
    split; [reflexivity|]. intros st1 st2 -> [= ->]. by repeat split.
Qed.

(** Two runs over a boxed structure: one built rule by rule, one computed. *)
Lemma flattening_is_deterministic_witness :
  let value := PArray (NdArray DObject [] [PMapping [("k", PStr "v")]]) in
  Ok (assign "x_k" (asarray (PStr "v")) fstate_empty)
  = flatten_value "x" value fstate_empty.
Proof.
  intros value.
  refine (proj1 (proj1 (proj2 flattening_is_deterministic) "x" value fstate_empty _ _ _
                   (runs_complete value "x" fstate_empty))).
  eapply (run_boxed_mapping "x" value (PMapping [("k", PStr "v")])); try done.
  apply run_mapping; [done|]. simpl.
  eapply items_next; [by apply run_str|apply items_done].
Defined.

(** * The traversal as a list of insertions *)

Lemma string_app_nil_r (s : string) : s +:+ "" = s.
Proof.
  induction s as [|c s IH]; [reflexivity|].
  change (String c (s +:+ "") = String c s). by rewrite IH.
Qed.

Lemma string_app_assoc (a b c : string) : (a +:+ b) +:+ c = a +:+ (b +:+ c).
Proof.
  induction a as [|x a IH]; [reflexivity|].
  change (String x ((a +:+ b) +:+ c) = String x (a +:+ (b +:+ c))). by rewrite IH.
Qed.

Lemma extends_refl name : extends name name.
Proof. exists "". by rewrite string_app_nil_r. Qed.

Lemma extends_trans a b c : extends a b → extends b c → extends a c.
Proof.
  intros [r1 ->] [r2 ->]. exists (r1 +:+ r2). by rewrite string_app_assoc.
Qed.

Lemma extends_sub_name name sub_key : extends name (sub_name name sub_key).
Proof.
  destruct name as [|c name]; [by exists sub_key|].
  by exists ("_" +:+ sub_key).
Qed.

Lemma extends_idx_name name idx : extends name (idx_name name idx).
Proof. by exists ("_" +:+ pretty idx). Qed.

Lemma for_each_app {A St} (body : A → St → result St) l1 l2 st :
  for_each body (l1 ++ l2) st = (st' ← for_each body l1 st; for_each body l2 st').
Proof.
  revert st. induction l1 as [|x l1 IH]; intros st; [reflexivity|].
  rewrite <- app_comm_cons, !for_each_cons.
  destruct (body x st) as [st1|e]; simpl; [apply IH|reflexivity].
Qed.

(** [flatten_value] does what its list of insertions does, in that order. *)
Lemma flatten_value_events value :
  ∀ name st, flatten_value name value st = for_each run_event (events_of name value) st.
Proof.
  induction value as [items IH|s|elems IH|b|b|canon repr|tag|arr IH]
    using pyvalue_nested_ind; intros name st; cbn [flatten_value events_of].
  - revert st. induction IH as [|[sub_key sub_val] items Hhead _ IHitems]; intros st.
    + reflexivity.
    + rewrite fmap_cons, for_each_cons. cbn [mjoin list_join]. rewrite for_each_app.
      simpl in Hhead |- *. rewrite Hhead.
      destruct (for_each run_event _ st) as [st1|e]; simpl; [apply IHitems|reflexivity].
  - reflexivity.
  - generalize 0. intros idx. revert idx st.
    induction IH as [|elem elems Hhead _ IHelems]; intros idx st.
    + reflexivity.
    + rewrite for_each_enum_cons. cbn [events_enum]. rewrite for_each_app, Hhead.
      destruct (for_each run_event _ st) as [st1|e]; simpl; [apply IHelems|reflexivity].
  - simpl. by destruct (store _ _ _).
  - simpl. by destruct (store _ _ _).
  - simpl. by destruct (store _ _ _).
  - simpl. by destruct (store _ _ _).
  - destruct (is_boxed arr).
    + destruct (nd_data arr) as [|element [|]]; [reflexivity| |reflexivity].
      apply Forall_cons in IH as [IHelement _].
      destruct element; try apply IHelement; simpl; by destruct (store _ _ _).
    + simpl. by destruct (store _ _ _).
Qed.

(** Every key [flatten_value name] inserts under starts with [name]. *)
Lemma events_of_extend value :
  ∀ name, Forall (λ ev, ∀ key, event_key ev = Some key → extends name key)
            (events_of name value).
Proof.
  assert (Hone : ∀ name ev,
    (∀ key, event_key ev = Some key → key = name) →
    Forall (λ ev, ∀ key, event_key ev = Some key → extends name key) [ev]).
  { intros name ev Hkey. constructor; [|constructor].
    intros key ->%Hkey. apply extends_refl. }
  induction value as [items IH|s|elems IH|b|b|canon repr|tag|arr IH]
    using pyvalue_nested_ind; intros name; cbn [events_of];
    try (apply Hone; by intros key [= <-]).
  - induction IH as [|[sub_key sub_val] items Hhead _ IHitems]; [constructor|].
    rewrite fmap_cons. cbn [mjoin list_join]. apply Forall_app. split; [|exact IHitems].
    eapply Forall_impl; [apply Hhead|]. simpl. intros ev Hev key Hkey.
    eapply extends_trans; [apply extends_sub_name|by apply Hev].
  - generalize 0. intros idx. revert idx.
    induction IH as [|elem elems Hhead _ IHelems]; intros idx; [constructor|].
    cbn [events_enum]. apply Forall_app. split; [|apply IHelems].
    eapply Forall_impl; [apply Hhead|]. simpl. intros ev Hev key Hkey.
    eapply extends_trans; [apply extends_idx_name|by apply Hev].
  - destruct (is_boxed arr); [|apply Hone; by intros key [= <-]].
    destruct (nd_data arr) as [|element [|]]; [by apply Hone| |by apply Hone].
    apply Forall_cons in IH as [IHelement _].
    destruct element; try apply IHelement; apply Hone; by intros key [= <-].
Qed.

Lemma forallb_Forall_true {A} (f : A → bool) (l : list A) :
  forallb f l = true ↔ Forall (λ x, f x = true) l.
Proof.
  induction l as [|x l IH]; simpl.
  - split; [constructor|done].
  - rewrite andb_true_iff, Forall_cons, IH. done.
Qed.

Lemma mapping_events_Forall {A} (P : event → Prop) (f : A → list event) (l : list A) :
  Forall (λ x, Forall P (f x)) l → Forall P (mjoin (f <$> l)).
Proof.
  induction 1 as [|x l Hx _ IH]; [constructor|].
  rewrite fmap_cons. cbn [mjoin list_join]. apply Forall_app. by split.
Qed.

Lemma events_enum_Forall {A} (P : event → Prop) (body : nat → A → list event) l :
  Forall (λ x, ∀ idx, Forall P (body idx x)) l →
  ∀ idx, Forall P (events_enum body idx l).
Proof.
  induction 1 as [|x l Hx _ IH]; intros idx; [constructor|].
  cbn [events_enum]. apply Forall_app. split; [apply Hx|apply IH].
Qed.

(** The arrays the string branch assigns are arrays of strings. *)
Lemma events_of_assign value :
  ∀ name, Forall (λ ev, ∀ key arr, ev = Assign key arr → ∃ s, arr = asarray (PStr s))
            (events_of name value).
Proof.
  induction value as [items IH|s|elems IH|b|b|canon repr|tag|arr IH]
    using pyvalue_nested_ind; intros name; cbn [events_of];
    try (by repeat constructor).
  - apply mapping_events_Forall. eapply Forall_impl; [exact IH|]. by intros kv Hkv.
  - constructor; [|constructor]. intros key arr [= _ <-]. by exists s.
  - apply events_enum_Forall. eapply Forall_impl; [exact IH|]. by intros elem Helem idx.
  - destruct (is_boxed arr); [|by repeat constructor].
    destruct (nd_data arr) as [|element [|]]; try by repeat constructor.
    apply Forall_cons in IH as [IHelement _].
    destruct element; try apply IHelement; by repeat constructor.
Qed.

(** In a well-formed value [arr.item()] never raises. *)
Lemma events_of_well_formed value :
  ∀ name, well_formed value = true →
          Forall (λ ev, ev ≠ ItemFailure) (events_of name value).
Proof.
  induction value as [items IH|s|elems IH|b|b|canon repr|tag|arr IH]
    using pyvalue_nested_ind; intros name Hwf; cbn [events_of];
    try (by repeat constructor).
  - apply mapping_events_Forall. cbn [well_formed] in Hwf.
    apply forallb_Forall_true in Hwf. rewrite Forall_forall in IH, Hwf.
    apply Forall_forall. intros kv Hkv. apply (IH kv Hkv), (Hwf kv Hkv).
  - apply events_enum_Forall. cbn [well_formed] in Hwf.
    apply forallb_Forall_true in Hwf. rewrite Forall_forall in IH, Hwf.
    apply Forall_forall. intros elem Helem idx. apply (IH elem Helem), (Hwf elem Helem).
  - cbn [well_formed] in Hwf. apply andb_true_iff in Hwf as [Hlen Hwf].
    apply Nat.eqb_eq in Hlen. apply forallb_Forall_true in Hwf.
    destruct (is_boxed arr) eqn:Hboxed; [|by repeat constructor].
    apply andb_true_iff in Hboxed as [_ Hsize]. apply bool_decide_eq_true in Hsize.
    rewrite Hsize in Hlen.
    destruct (nd_data arr) as [|element [|]]; try discriminate.
    apply Forall_cons in IH as [IHelement _]. apply Forall_cons in Hwf as [Hwf _].
    destruct element; try (by apply IHelement); by repeat constructor.
Qed.

(** Without plain strings the string branch is never taken. *)
Lemma events_of_plain_str_free value :
  ∀ name, plain_str_free value = true →
          Forall (λ ev, is_assign ev = false) (events_of name value).
Proof.
  induction value as [items IH|s|elems IH|b|b|canon repr|tag|arr IH]
    using pyvalue_nested_ind; intros name Hfree; cbn [events_of];
    try (by repeat constructor).
  - apply mapping_events_Forall. cbn [plain_str_free] in Hfree.
    apply forallb_Forall_true in Hfree. rewrite Forall_forall in IH, Hfree.
    apply Forall_forall. intros kv Hkv. apply (IH kv Hkv), (Hfree kv Hkv).
  - apply events_enum_Forall. cbn [plain_str_free] in Hfree.
    apply forallb_Forall_true in Hfree. rewrite Forall_forall in IH, Hfree.
    apply Forall_forall. intros elem Helem idx.
    apply (IH elem Helem), (Hfree elem Helem).
  - cbn [plain_str_free] in Hfree.
    destruct (is_boxed arr); [|by repeat constructor].
    destruct (nd_data arr) as [|element [|]]; try by repeat constructor.
    apply Forall_cons in IH as [IHelement _].
    destruct element; try (by apply IHelement); by repeat constructor.
Qed.

(** ** What a list of insertions does to the dictionaries *)

Lemma run_events_cons ev evs st :
  for_each run_event (ev :: evs) st
  = (st' ← run_event ev st; for_each run_event evs st').
Proof. reflexivity. Qed.

(** A key none of the insertions is made under is left as it is. *)
Lemma run_events_frame evs :
  ∀ st st' key,
    for_each run_event evs st = Ok st' →
    Forall (λ ev, event_key ev ≠ Some key) evs →
    flat st' !! key = flat st !! key ∧ shapes st' !! key = shapes st !! key.
Proof.
  induction evs as [|ev evs IH]; intros st st' key Hrun Hkeys.
  - by injection Hrun as <-.
  - rewrite run_events_cons in Hrun. apply Forall_cons in Hkeys as [Hkey Hkeys].
    destruct (run_event ev st) as [st1|e] eqn:Hev; [|done]. simpl in Hrun.
    destruct (IH st1 st' key Hrun Hkeys) as [-> ->].
    destruct ev as [k arr|k arr|]; simpl in Hev, Hkey; [| |done].
    + injection Hev as <-. simpl. rewrite !lookup_insert_ne; [done|congruence..].
    + unfold store in Hev. destruct (flat st !! k); [done|]. injection Hev as <-.
      simpl. rewrite !lookup_insert_ne; [done|congruence..].
Qed.

(** An entry that is there stays, unless a string is assigned over it. *)
Lemma run_events_survive evs :
  Forall (λ ev, ∀ key arr, ev = Assign key arr → ∃ s, arr = asarray (PStr s)) evs →
  ∀ st st' key arr,
    for_each run_event evs st = Ok st' →
    flat st !! key = Some arr →
    flat st' !! key = Some arr ∨ ∃ s, flat st' !! key = Some (asarray (PStr s)).
Proof.
  induction 1 as [|ev evs Hev _ IH]; intros st st' key arr Hrun Hkey.
  - injection Hrun as <-. by left.
  - rewrite run_events_cons in Hrun.
    destruct (run_event ev st) as [st1|e] eqn:Hstep; [|done]. simpl in Hrun.
    destruct ev as [k a|k a|]; simpl in Hstep; [| |done].
    + injection Hstep as <-. destruct (decide (k = key)) as [->|Hne].
      * destruct (Hev key a eq_refl) as [s ->]. right.
        destruct (IH _ st' key (asarray (PStr s)) Hrun) as [Hsame|Hstr];
          [simpl; apply lookup_insert_eq|by exists s|exact Hstr].
      * apply (IH _ st' key arr Hrun). simpl. by rewrite lookup_insert_ne.
    + unfold store in Hstep. destruct (flat st !! k) eqn:Hk; [done|].
      injection Hstep as <-. apply (IH _ st' key arr Hrun). simpl.
      rewrite lookup_insert_ne; [done|]. intros ->. congruence.
Qed.

(** Checked insertions only: every one adds an entry, and no entry
    changes. *)
Lemma run_events_checked evs :
  Forall (λ ev, is_assign ev = false) evs →
  ∀ st st',
    for_each run_event evs st = Ok st' →
    size (flat st') = size (flat st) + List.length evs ∧
    ∀ key arr, flat st !! key = Some arr → flat st' !! key = Some arr.
Proof.
  induction 1 as [|ev evs Hev _ IH]; intros st st' Hrun.
  - injection Hrun as <-. simpl. split; [lia|done].
  - rewrite run_events_cons in Hrun.
    destruct (run_event ev st) as [st1|e] eqn:Hstep; [|done]. simpl in Hrun.
    destruct ev as [k a|k a|]; simpl in Hstep, Hev; [done| |done].
    unfold store in Hstep. destruct (flat st !! k) eqn:Hk; [done|].
    injection Hstep as <-. destruct (IH _ st' Hrun) as [Hsize Hkeep].
    split.
    + rewrite Hsize. simpl. rewrite map_size_insert_None by done. lia.
    + intros key arr Hkey. apply Hkeep. simpl.
      rewrite lookup_insert_ne; [done|]. intros ->. congruence.
Qed.

(** The exception of a list of insertions is that of one of them. *)
Lemma run_events_raise evs :
  ∀ st e,
    for_each run_event evs st = Raise e →
    (e = ItemSizeError ∧ ItemFailure ∈ evs)
    ∨ ∃ key arr, e = DuplicateKey key ∧ Store key arr ∈ evs.
Proof.
  induction evs as [|ev evs IH]; intros st e Hrun; [done|].
  rewrite run_events_cons in Hrun.
  destruct (run_event ev st) as [st1|e1] eqn:Hstep; simpl in Hrun.
  - destruct (IH st1 e Hrun) as [[-> Hin]|(key & arr & -> & Hin)].
    + left. split; [done|]. apply elem_of_cons. by right.
    + right. exists key, arr. split; [done|]. apply elem_of_cons. by right.
  - injection Hrun as <-. destruct ev as [k a|k a|]; simpl in Hstep; [done| |].
    + unfold store in Hstep. destruct (flat st !! k); [|done]. injection Hstep as <-.
      right. exists k, a. split; [done|]. apply elem_of_cons. by left.
    + injection Hstep as <-. left. split; [done|]. apply elem_of_cons. by left.
Qed.

(** The keys afterwards are the keys before and the keys inserted under. *)
Lemma run_events_dom evs :
  ∀ st st',
    for_each run_event evs st = Ok st' →
    dom (flat st') = dom (flat st) ∪ list_to_set (omap event_key evs).
Proof.
  induction evs as [|ev evs IH]; intros st st' Hrun.
  - injection Hrun as <-. simpl. by rewrite union_empty_r_L.
  - rewrite run_events_cons in Hrun.
    destruct (run_event ev st) as [st1|e] eqn:Hstep; [|done]. simpl in Hrun.
    rewrite (IH st1 st' Hrun).
    destruct ev as [k a|k a|]; simpl in Hstep; [| |done].
    + injection Hstep as <-. simpl. rewrite dom_insert_L.
      apply set_eq. intros x. rewrite !elem_of_union, elem_of_singleton. tauto.
    + unfold store in Hstep. destruct (flat st !! k); [done|]. injection Hstep as <-.
      simpl. rewrite dom_insert_L.
      apply set_eq. intros x. rewrite !elem_of_union, elem_of_singleton. tauto.
Qed.

(** Insertions under pairwise distinct keys that are all free go through. *)
Lemma run_events_succeed evs :
  Forall (λ ev, ev ≠ ItemFailure) evs →
  NoDup (omap event_key evs) →
  ∀ st,
    (∀ key, key ∈ omap event_key evs → flat st !! key = None) →
    ∃ st', for_each run_event evs st = Ok st'.
Proof.
  induction 1 as [|ev evs Hev _ IH]; intros Hdistinct st Hfree.
  - by exists st.
  - rewrite run_events_cons.
    destruct ev as [k a|k a|]; [| |done]; simpl in Hdistinct, Hfree |- *;
      apply NoDup_cons in Hdistinct as [Hk Hdistinct].
    + apply IH; [done|]. intros key Hkey. simpl. rewrite lookup_insert_ne.
      * apply Hfree, elem_of_cons. by right.
      * by intros ->.
    + unfold store. rewrite (Hfree k) by (apply elem_of_cons; by left). simpl.
      apply IH; [done|]. intros key Hkey. simpl. rewrite lookup_insert_ne.
      * apply Hfree, elem_of_cons. by right.
      * by intros ->.
Qed.

(** ** Consequences for [flatten_value] *)

(** X1. A call of [flatten_value] does exactly what its list of insertions
    does, one after the other: an unchecked assignment per plain string, a
    checked one per other terminal value.  Every key of the list starts with
    [name]. *)
Theorem flatten_value_is_its_insertions :
  ∀ name value st,
    flatten_value name value st = for_each run_event (events_of name value) st ∧
    Forall (λ ev, ∀ key, event_key ev = Some key → extends name key)
      (events_of name value).
Proof.
  intros name value st. split; [apply flatten_value_events|apply events_of_extend].
Qed.

Lemma events_of_avoid name value key :
  ¬ extends name key → Forall (λ ev, event_key ev ≠ Some key) (events_of name value).
Proof.
  intros Hkey. eapply Forall_impl; [apply events_of_extend|].
  intros ev Hev Heq. apply Hkey. by apply Hev.
Qed.

(** X2. A call of [flatten_value] that returns has left alone, in both
    dictionaries, every key that does not start with [name]. *)
Theorem flatten_value_keeps_other_names :
  ∀ name value st st' key,
    flatten_value name value st = Ok st' →
    ¬ extends name key →
    flat st' !! key = flat st !! key ∧ shapes st' !! key = shapes st !! key.
Proof.
  intros name value st st' key Hrun Hkey. rewrite flatten_value_events in Hrun.
  eapply run_events_frame; [exact Hrun|]. by apply events_of_avoid.
Qed.

(** The calibration structure next to a gain that is there already. *)
Lemma flatten_value_keeps_other_names_witness :
  let st := assign "gain" (asarray (PScalar "float64" 3)) fstate_empty in
  ∃ st',
    flatten_value "cal" sample_struct st = Ok st' ∧
    flat st' !! "gain" = flat st !! "gain" ∧
    shapes st' !! "gain" = shapes st !! "gain".
Proof.
  intros st. eexists. split; [reflexivity|].
  apply (flatten_value_keeps_other_names "cal" sample_struct st _ "gain").
  - reflexivity.
  - intros [rest Hrest]. discriminate Hrest.
Defined.

(** X3. A call of [flatten_value] that returns has removed no key, and an
    array that was stored under a key is still there, or a string met by
    the string branch has taken its place. *)
Theorem flatten_value_replaces_by_strings_only :
  ∀ name value st st',
    flatten_value name value st = Ok st' →
    dom (flat st) ⊆ dom (flat st') ∧
    ∀ key arr,
      flat st !! key = Some arr →
      flat st' !! key = Some arr ∨ ∃ s, flat st' !! key = Some (asarray (PStr s)).
Proof.
  intros name value st st' Hrun. rewrite flatten_value_events in Hrun. split.
  - rewrite (run_events_dom _ _ _ Hrun). apply union_subseteq_l.
  - intros key arr. apply (run_events_survive _ (events_of_assign value name) _ _ _ _ Hrun).
Qed.

(** The unit of the calibration structure over a number stored before. *)
Lemma flatten_value_replaces_by_strings_only_witness :
  let st := assign "cal_unit" (asarray (PScalar "float64" 3)) fstate_empty in
  ∃ st',
    flatten_value "cal" sample_struct st = Ok st' ∧
    (flat st' !! "cal_unit" = Some (asarray (PScalar "float64" 3))
     ∨ ∃ s, flat st' !! "cal_unit" = Some (asarray (PStr s))).
Proof.
  intros st. eexists. split; [reflexivity|].
  apply (proj2 (flatten_value_replaces_by_strings_only "cal" sample_struct st _ eq_refl)).
  reflexivity.
Defined.

(** X4. For a value with no plain string, a call of [flatten_value] that
    returns has changed no entry that was there and has added one entry per
    terminal value: nothing was lost to a collision. *)
Theorem flatten_value_without_plain_strings_adds_every_value :
  ∀ name value st st',
    plain_str_free value = true →
    flatten_value name value st = Ok st' →
    size (flat st') = size (flat st) + List.length (events_of name value) ∧
    ∀ key arr, flat st !! key = Some arr → flat st' !! key = Some arr.
Proof.
  intros name value st st' Hfree Hrun. rewrite flatten_value_events in Hrun.
  by apply run_events_checked; [apply events_of_plain_str_free|].
Qed.

Lemma flatten_value_without_plain_strings_adds_every_value_witness :
  ∃ st',
    flatten_value "cal" sample_struct_boxed fstate_empty = Ok st' ∧
    size (flat st') = 4.
Proof.
  eexists. split; [reflexivity|].
  apply (proj1 (flatten_value_without_plain_strings_adds_every_value "cal"
                  sample_struct_boxed fstate_empty _ eq_refl eq_refl)).
Defined.

(** X5. On a well-formed value the only exception [flatten_value] raises is
    the duplicate-key error, and the key it names starts with [name]. *)
Theorem flatten_value_raises_duplicate_key_only :
  ∀ name value st e,
    well_formed value = true →
    flatten_value name value st = Raise e →
    ∃ key, e = DuplicateKey key ∧ extends name key.
Proof.
  intros name value st e Hwf Hrun. rewrite flatten_value_events in Hrun.
  apply run_events_raise in Hrun as [[_ Hin]|(key & arr & -> & Hin)].
  - assert (Hno := events_of_well_formed value name Hwf).
    rewrite Forall_forall in Hno. by destruct (Hno _ Hin).
  - exists key. split; [done|].
    assert (Hext := events_of_extend value name). rewrite Forall_forall in Hext.
    by apply (Hext _ Hin).
Qed.

(** The calibration structure over a sampling rate stored before. *)
Lemma flatten_value_raises_duplicate_key_only_witness :
  let st := assign "cal_fs" (asarray (PScalar "float64" 3)) fstate_empty in
  ∃ key, DuplicateKey "cal_fs" = DuplicateKey key ∧ extends "cal" key.
Proof.
  intros st.
  apply (flatten_value_raises_duplicate_key_only "cal" sample_struct st); reflexivity.
Defined.

(** X6. A well-formed value whose insertions go under pairwise distinct
    keys, none of them in the flat dictionary, is flattened without an
    exception, and the flat dictionary gains exactly these keys. *)
Theorem flatten_value_succeeds_on_distinct_free_keys :
  ∀ name value st,
    well_formed value = true →
    NoDup (omap event_key (events_of name value)) →
    (∀ key, key ∈ omap event_key (events_of name value) → flat st !! key = None) →
    ∃ st',
      flatten_value name value st = Ok st' ∧
      dom (flat st') = dom (flat st) ∪ list_to_set (omap event_key (events_of name value)).
Proof.
  intros name value st Hwf Hdistinct Hfree.
  destruct (run_events_succeed _ (events_of_well_formed value name Hwf) Hdistinct st Hfree)
    as [st' Hrun].
  exists st'. rewrite flatten_value_events. split; [exact Hrun|].
  by apply run_events_dom.
Qed.

Lemma flatten_value_succeeds_on_distinct_free_keys_witness :
  ∃ st',
    flatten_value "cal" sample_struct fstate_empty = Ok st' ∧
    dom (flat st') = {[ "cal_fs"; "cal_unit"; "cal_ch_0"; "cal_ch_1_gain" ]}.
Proof.
  destruct (flatten_value_succeeds_on_distinct_free_keys "cal" sample_struct fstate_empty)
    as (st' & Hrun & Hdom).
  - reflexivity.
  - by_evaluation.
  - intros key _. apply lookup_empty.
  - exists st'. split; [exact Hrun|]. rewrite Hdom. vm_compute. reflexivity.
Defined.

(** * More on the single-file conversion *)

(** The loop over the top-level keys does what the insertions of the
    record do. *)
Lemma flatten_record_events raw :
  flatten_record raw = for_each run_event (record_events raw) fstate_empty.
Proof.
  unfold flatten_record, record_events. generalize fstate_empty.
  induction raw as [|[key value] raw IH]; intros st; [reflexivity|].
  rewrite for_each_cons, fmap_cons. cbn [mjoin list_join]. rewrite for_each_app.
  simpl. destruct (String.prefix "__" key); simpl; [apply IH|].
  rewrite flatten_value_events.
  destruct (for_each run_event _ st) as [st1|e]; simpl; [apply IH|reflexivity].
Qed.

Lemma record_events_cons key value raw :
  record_events ((key, value) :: raw)
  = (if String.prefix "__" key then [] else events_of key value) ++ record_events raw.
Proof. reflexivity. Qed.

Lemma record_events_public raw : record_events (public_items raw) = record_events raw.
Proof.
  induction raw as [|[key value] raw IH]; [reflexivity|].
  rewrite record_events_cons. unfold public_items in *. cbn [List.filter fst].
  destruct (String.prefix "__" key) eqn:Hkey; cbn [negb]; [exact IH|].
  by rewrite record_events_cons, Hkey, IH.
Qed.

(** Each key of the record's insertions starts with a top-level key that
    is not reserved. *)
Lemma record_events_extend raw :
  Forall (λ ev, ∀ key, event_key ev = Some key →
                       ∃ top value, (top, value) ∈ raw ∧
                                    String.prefix "__" top = false ∧
                                    extends top key)
    (record_events raw).
Proof.
  unfold record_events. induction raw as [|[top value] raw IH]; [constructor|].
  rewrite fmap_cons. cbn [mjoin list_join]. apply Forall_app. split.
  - simpl. destruct (String.prefix "__" top) eqn:Htop; [constructor|].
    eapply Forall_impl; [apply events_of_extend|]. simpl. intros ev Hev key Hkey.
    exists top, value. split; [apply elem_of_cons; by left|]. split; [done|by apply Hev].
  - eapply Forall_impl; [exact IH|]. simpl.
    intros ev Hev key Hkey. destruct (Hev key Hkey) as (top' & value' & Hin & Htop & Hext).
    exists top', value'. split; [apply elem_of_cons; by right|done].
Qed.

(** X7. The reserved top-level keys (two leading underscores) play no
    part: the record flattens as the record without them, and every key of
    the flat dictionary starts with a top-level key that is not reserved. *)
Theorem flatten_record_ignores_reserved_keys :
  ∀ raw,
    flatten_record (public_items raw) = flatten_record raw ∧
    ∀ st key,
      flatten_record raw = Ok st →
      key ∈ dom (flat st) →
      ∃ top value,
        (top, value) ∈ raw ∧ String.prefix "__" top = false ∧ extends top key.
Proof.
  intros raw. split.
  - by rewrite !flatten_record_events, record_events_public.
  - intros st key Hrun Hkey. rewrite flatten_record_events in Hrun.
    rewrite (run_events_dom _ _ _ Hrun) in Hkey. simpl in Hkey.
    rewrite dom_empty_L, union_empty_l_L, elem_of_list_to_set in Hkey.
    apply list_elem_of_omap in Hkey as (ev & Hev & Hkey).
    assert (Hext := record_events_extend raw). rewrite Forall_forall in Hext.
    by apply (Hext ev Hev).
Qed.

(** The key [u] of the sample recording comes from the variable [u]. *)
Lemma flatten_record_ignores_reserved_keys_witness :
  ∃ top value,
    (top, value) ∈ sample_record ∧ String.prefix "__" top = false ∧ extends top "u".
Proof.
  destruct (flatten_record sample_record) as [st|e] eqn:Hrun; [|discriminate Hrun].
  apply (proj2 (flatten_record_ignores_reserved_keys sample_record) st "u" Hrun).
  injection Hrun as <-. by_evaluation.
Defined.

(** X8. [convert_file] writes its two files or nothing.  The archive path
    ends in [.npz], a file can be written at each of the two destinations,
    and the record gives no array the name [allow_pickle]; then the writes
    of the call go through and every exception comes before them.  When the
    call raises, the file system is as before; when it returns, only the
    two destinations have changed, the archive is there and the manifest
    names the source, the archive, the time and the returned shapes. *)
Theorem convert_file_writes_both_or_nothing :
  ∀ now input_path output_path metadata_path fs fs' r,
    has_suffix ".npz" (path_name output_path) = true →
    can_write fs output_path = true →
    can_write fs metadata_path = true →
    stores_every_array fs input_path = true →
    convert_file now input_path output_path metadata_path fs = (fs', r) →
    match r with
    | Raise _ => fs' = fs
    | Ok shp =>
        (∀ p, p ≠ output_path → p ≠ metadata_path → fs' !! p = fs !! p) ∧
        is_Some (fs' !! output_path) ∧
        fs' !! metadata_path = Some (JsonFile (Manifest input_path output_path now shp))
    end.
Proof.
  intros now input_path output_path metadata_path fs fs' r _ _ _ _ Hrun.
  destruct r as [shp|e].
  - split; [|split].
    + intros p. by apply (convert_file_lookup _ _ _ _ _ _ _ _ Hrun).
    + apply convert_file_ok in Hrun as (raw & st & _ & _ & _ & _ & _ & ->).
      destruct (decide (metadata_path = output_path)) as [->|Hne].
      * rewrite lookup_insert_eq. by eexists.
      * rewrite lookup_insert_ne, lookup_insert_eq by done. by eexists.
    + apply convert_file_ok in Hrun as (raw & st & _ & _ & _ & _ & -> & ->).
      apply lookup_insert_eq.
  - revert Hrun. unfold convert_file, savez_compressed.
    destruct (load_and_flatten input_path fs) as [st|e']; [|by intros [= <- _]].
    case_bool_decide; by intros [= <- ?].
Qed.

(** The first recording of the sample directory. *)
Lemma convert_file_writes_both_or_nothing_witness :
  let shp : gmap string manifest_entry :=
    {[ "fs" := ManifestEntry [] "float64"; "u" := ManifestEntry [3] "float64" ]} in
  let fs' := (convert_file "t" ["data"; "a.mat"] ["out"; "ExpD"; "a.npz"]
                ["out"; "ExpD"; "a.json"] sample_fs).1 in
  is_Some (fs' !! ["out"; "ExpD"; "a.npz"]) ∧
  fs' !! ["out"; "ExpD"; "a.json"]
  = Some (JsonFile (Manifest ["data"; "a.mat"] ["out"; "ExpD"; "a.npz"] "t" shp)).
Proof.
  intros shp fs'.
  refine (proj2 (convert_file_writes_both_or_nothing "t" ["data"; "a.mat"]
                   ["out"; "ExpD"; "a.npz"] ["out"; "ExpD"; "a.json"] sample_fs
                   fs' (Ok shp) _ _ _ _ _)); vm_compute; reflexivity.
Defined.



(** * Destinations *)

Lemma string_length_app (a b : string) :
  String.length (a +:+ b) = String.length a + String.length b.
Proof.
  induction a as [|c a IH]; [reflexivity|].
  change (S (String.length (a +:+ b)) = S (String.length a + String.length b)).
  by rewrite IH.
Qed.

Lemma string_app_empty (a b : string) : a +:+ b = "" → b = "".
Proof. by destruct a. Qed.

Lemma string_app_inj_r (a b c : string) : a +:+ c = b +:+ c → a = b.
Proof.
  revert b. induction a as [|x a IH]; intros [|y b] Heq.
  - reflexivity.
  - apply (f_equal String.length) in Heq.
    change (String.length c = S (String.length (b +:+ c))) in Heq.
    rewrite string_length_app in Heq. lia.
  - apply (f_equal String.length) in Heq.
    change (S (String.length (a +:+ c)) = String.length c) in Heq.
    rewrite string_length_app in Heq. lia.
  - change (String x (a +:+ c) = String y (b +:+ c)) in Heq.
    injection Heq as -> Heq. f_equal. by apply IH.
Qed.

Lemma substring_all (s : string) : substring 0 (String.length s) s = s.
Proof. induction s as [|c s IH]; [reflexivity|]. simpl. by rewrite IH. Qed.

Lemma substring_app_l (a b : string) : substring 0 (String.length a) (a +:+ b) = a.
Proof.
  induction a as [|c a IH]; [by destruct b|].
  change (String c (substring 0 (String.length a) (a +:+ b)) = String c a).
  by rewrite IH.
Qed.

Lemma substring_app_r (a b : string) :
  substring (String.length a) (String.length b) (a +:+ b) = b.
Proof.
  induction a as [|c a IH]; [apply substring_all|]. exact IH.
Qed.

Lemma rfind_dot_app (a b : string) :
  rfind_dot (a +:+ b)
  = match rfind_dot b with
    | Some i => Some (String.length a + i)
    | None => rfind_dot a
    end.
Proof.
  induction a as [|c a IH].
  { change ("" +:+ b) with b. by destruct (rfind_dot b). }
  change (match rfind_dot (a +:+ b) with
          | Some i => Some (S i)
          | None => if Ascii.eqb c "." then Some 0 else None
          end
          = match rfind_dot b with
            | Some i => Some (String.length (String c a) + i)
            | None => rfind_dot (String c a)
            end).
  rewrite IH. by destruct (rfind_dot b).
Qed.

Lemma last_char_app (a b : string) : b ≠ "" → last_char (a +:+ b) = last_char b.
Proof.
  intros Hb. induction a as [|c a IH]; [reflexivity|].
  change (last_char (String c (a +:+ b)) = last_char b).
  destruct (a +:+ b) as [|d rest] eqn:Hrest.
  - by apply string_app_empty in Hrest.
  - exact IH.
Qed.

(** A name [stem.ext], the extension without a dot, splits before the
    extension. *)
Lemma split_point_extension (stem ext : string) :
  stem ≠ "" → ext ≠ "" → rfind_dot ext = None →
  split_point (stem +:+ "." +:+ ext) = Some (String.length stem).
Proof.
  intros Hstem Hext Hdot. unfold split_point. rewrite rfind_dot_app.
  change (rfind_dot ("." +:+ ext)) with
    (match rfind_dot ext with Some i => Some (S i) | None => Some 0 end).
  rewrite Hdot, Nat.add_0_r, string_length_app.
  change (String.length ("." +:+ ext)) with (S (String.length ext)).
  destruct stem; [done|]. destruct ext; [done|]. simpl.
  case_match eqn:Hlt; [done|]. apply Nat.ltb_ge in Hlt. lia.
Qed.

Lemma path_name_joinpath (p : Path) (child : string) : path_name (joinpath p child) = child.
Proof. apply last_last. Qed.

Lemma path_stem_extension (dir : Path) (stem ext : string) :
  stem ≠ "" → ext ≠ "" → rfind_dot ext = None →
  path_stem (joinpath dir (stem +:+ "." +:+ ext)) = stem.
Proof.
  intros Hstem Hext Hdot. unfold path_stem.
  rewrite path_name_joinpath, split_point_extension by done.
  apply substring_app_l.
Qed.

Lemma with_suffix_extension (dir : Path) (stem ext suffix : string) :
  stem ≠ "" → ext ≠ "" → rfind_dot ext = None →
  with_suffix (joinpath dir (stem +:+ "." +:+ ext)) suffix = joinpath dir (stem +:+ suffix).
Proof.
  intros Hstem Hext Hdot. unfold with_suffix, path_suffix.
  rewrite path_name_joinpath, split_point_extension by done.
  unfold joinpath at 2. rewrite removelast_last.
  rewrite string_length_app.
  replace (String.length stem + String.length ("." +:+ ext) - String.length stem)
    with (String.length ("." +:+ ext)) by lia.
  rewrite substring_app_r.
  replace (String.length stem + String.length ("." +:+ ext)
           - String.length ("." +:+ ext)) with (String.length stem) by lia.
  by rewrite substring_app_l.
Qed.

(** The stem of a name that is not empty is not empty. *)
Lemma path_stem_nonempty (p : Path) : path_name p ≠ "" → path_stem p ≠ "".
Proof.
  unfold path_stem, split_point. intros Hname.
  destruct (rfind_dot (path_name p)) as [i|]; [|done].
  destruct (0 <? i) eqn:Hpos; [|done]. apply Nat.ltb_lt in Hpos.
  destruct (i <? String.length (path_name p) - 1); [|done]. simpl.
  destruct (path_name p) as [|c name]; [done|].
  destruct i; [lia|]. done.
Qed.

(** The manifest of a file with a stem is the sibling of its archive. *)
Lemma metadata_path_of_stem (dest f : Path) :
  path_stem f ≠ "" →
  metadata_path_of dest f = joinpath dest (path_stem f +:+ ".json").
Proof.
  intros Hstem. unfold metadata_path_of, output_path_of.
  by apply (with_suffix_extension dest (path_stem f) "npz" ".json").
Qed.

(** A manifest path ends in "n", an archive path in "z". *)
Lemma output_path_of_neq_metadata (dest f g : Path) :
  output_path_of dest f ≠ metadata_path_of dest g.
Proof.
  unfold metadata_path_of, with_suffix, output_path_of, joinpath.
  intros Heq. apply app_inj_tail in Heq as [_ Heq].
  apply (f_equal last_char) in Heq.
  rewrite !last_char_app in Heq by done. discriminate Heq.
Qed.

(** X10. For a source file [stem.ext] the data set is named [stem], its
    archive is [stem.npz] and its manifest [stem.json], both directly in
    the destination directory; the archive and the manifest of any source
    file are two different paths. *)
Theorem destinations_are_siblings_named_after_the_stem :
  ∀ dest dir stem ext,
    stem ≠ "" → ext ≠ "" → rfind_dot ext = None →
    path_stem (joinpath dir (stem +:+ "." +:+ ext)) = stem ∧
    output_path_of dest (joinpath dir (stem +:+ "." +:+ ext))
    = joinpath dest (stem +:+ ".npz") ∧
    metadata_path_of dest (joinpath dir (stem +:+ "." +:+ ext))
    = joinpath dest (stem +:+ ".json") ∧
    ∀ f, output_path_of dest f ≠ metadata_path_of dest f.
Proof.
  intros dest dir stem ext Hstem Hext Hdot.
  assert (Hs := path_stem_extension dir stem ext Hstem Hext Hdot).
  split; [exact Hs|]. split; [|split].
  - unfold output_path_of. by rewrite Hs.
  - rewrite metadata_path_of_stem; by rewrite Hs.
  - intros f. apply output_path_of_neq_metadata.
Qed.

(** A recording with dots in its name. *)
Lemma destinations_are_siblings_named_after_the_stem_witness :
  path_stem ["data"; "pinknoise_5Hz-2.5kHz.mat"] = "pinknoise_5Hz-2.5kHz" ∧
  output_path_of ["out"; "ExpD"] ["data"; "pinknoise_5Hz-2.5kHz.mat"]
  = ["out"; "ExpD"; "pinknoise_5Hz-2.5kHz.npz"] ∧
  metadata_path_of ["out"; "ExpD"] ["data"; "pinknoise_5Hz-2.5kHz.mat"]
  = ["out"; "ExpD"; "pinknoise_5Hz-2.5kHz.json"].
Proof.
  destruct (destinations_are_siblings_named_after_the_stem ["out"; "ExpD"] ["data"]
              "pinknoise_5Hz-2.5kHz" "mat") as (Hstem & Hout & Hmeta & _);
    [discriminate|discriminate|reflexivity|].
  by repeat split.
Defined.

Lemma batch_targets_NoDup_cons dest f files :
  path_name f ≠ "" →
  Forall (λ g, path_name g ≠ "" ∧ path_stem g ≠ path_stem f) files →
  NoDup (batch_targets dest files) →
  NoDup (batch_targets dest (f :: files)).
Proof.
  intros Hf Hothers Hrest. rewrite batch_targets_cons.
  assert (Hmem : ∀ p, p ∈ batch_targets dest files →
                      ∃ g, g ∈ files ∧ (p = output_path_of dest g
                                        ∨ p = metadata_path_of dest g)).
  { intros p Hp. unfold batch_targets in Hp.
    apply list_elem_of_bind in Hp as (g & Hp & Hg). exists g. split; [done|].
    rewrite !elem_of_cons in Hp. destruct Hp as [->| [->|Hp]]; [by left|by right|].
    by apply elem_of_nil in Hp. }
  rewrite Forall_forall in Hothers.
  apply NoDup_cons. split; [|apply NoDup_cons; split; [|exact Hrest]].
  - rewrite elem_of_cons. intros [Heq|Hin].
    + by apply output_path_of_neq_metadata in Heq.
    + apply Hmem in Hin as (g & Hg & [Heq|Heq]).
      * destruct (Hothers g Hg) as [_ Hne]. apply Hne.
        unfold output_path_of, joinpath in Heq. apply app_inj_tail in Heq as [_ Heq].
        symmetry. by apply string_app_inj_r in Heq.
      * by apply output_path_of_neq_metadata in Heq.
  - intros Hin. apply Hmem in Hin as (g & Hg & [Heq|Heq]).
    + symmetry in Heq. by apply output_path_of_neq_metadata in Heq.
    + destruct (Hothers g Hg) as [Hgname Hne]. apply Hne.
      rewrite !metadata_path_of_stem in Heq by by apply path_stem_nonempty.
      unfold joinpath in Heq. apply app_inj_tail in Heq as [_ Heq].
      symmetry. by apply string_app_inj_r in Heq.
Qed.

(** X11. Source files with pairwise distinct stems have pairwise distinct
    destinations: no archive or manifest of one file is the archive or the
    manifest of another, or its own other file. *)
Theorem distinct_stems_give_distinct_destinations :
  ∀ dest files,
    Forall (λ f, path_name f ≠ "") files →
    NoDup (path_stem <$> files) →
    NoDup (batch_targets dest files).
Proof.
  intros dest files Hnames. induction Hnames as [|f files Hf Hnames IH]; intros Hstems.
  - constructor.
  - rewrite fmap_cons in Hstems. apply NoDup_cons in Hstems as [Hfresh Hstems].
    apply batch_targets_NoDup_cons; [done| |by apply IH].
    rewrite Forall_forall in Hnames. apply Forall_forall. intros g Hg.
    split; [by apply Hnames|]. intros Heq. apply Hfresh.
    rewrite <- Heq. apply list_elem_of_fmap. by exists g.
Qed.

Lemma distinct_stems_give_distinct_destinations_witness :
  NoDup (batch_targets ["out"; "ExpD"] sample_globbed).
Proof.
  apply distinct_stems_give_distinct_destinations; by_evaluation.
Defined.

(** * What the batch driver leaves alone *)

Lemma insert_is_Some (fs : gmap Path file) (q p : Path) (x : file) :
  is_Some (fs !! p) → is_Some (<[q := x]> fs !! p).
Proof.
  intros Hp. destruct (decide (q = p)) as [->|Hne].
  - rewrite lookup_insert_eq. by eexists.
  - by rewrite lookup_insert_ne.
Qed.

(** [convert_file] removes nothing. *)
Lemma convert_file_monotone now input_path output_path metadata_path fs fs' r p :
  convert_file now input_path output_path metadata_path fs = (fs', r) →
  is_Some (fs !! p) → is_Some (fs' !! p).
Proof.
  unfold convert_file, savez_compressed.
  destruct (load_and_flatten input_path fs) as [st|e]; [|by intros [= <- _]].
  case_bool_decide; intros [= <- _] Hp; [done|].
  by do 2 apply insert_is_Some.
Qed.

(** With both destinations free, [convert_file] changes nothing that is
    there. *)
Lemma convert_file_keeps_existing now input_path output_path metadata_path fs fs' r p :
  path_exists output_path fs = false →
  path_exists metadata_path fs = false →
  convert_file now input_path output_path metadata_path fs = (fs', r) →
  is_Some (fs !! p) → fs' !! p = fs !! p.
Proof.
  unfold path_exists. intros Hout%bool_decide_eq_false Hmeta%bool_decide_eq_false Hrun Hp.
  apply (convert_file_lookup _ _ _ _ _ _ _ _ Hrun); by intros ->.
Qed.

(** A conversion that returns has put something at its archive path. *)
Lemma convert_file_output_exists now input_path output_path metadata_path fs fs' shp :
  convert_file now input_path output_path metadata_path fs = (fs', Ok shp) →
  is_Some (fs' !! output_path).
Proof.
  intros (raw & st & _ & _ & _ & _ & _ & ->)%convert_file_ok.
  apply insert_is_Some. rewrite lookup_insert_eq. by eexists.
Qed.

(** The exceptions of [convert_file]. *)
Lemma convert_file_raises now input_path output_path metadata_path fs fs' e :
  convert_file now input_path output_path metadata_path fs = (fs', Raise e) →
  is_conversion_error e = true.
Proof.
  unfold convert_file, savez_compressed, load_and_flatten, loadmat.
  destruct (fs !! input_path) as [[raw| | | |]|]; simpl; try by intros [= _ <-].
  rewrite flatten_record_events.
  destruct (for_each run_event (record_events raw) fstate_empty) as [st|e'] eqn:Hrun; simpl.
  - case_bool_decide; [by intros [= _ <-]|]. case_bool_decide; by intros [= _ <-].
  - intros [= _ <-].
    by apply run_events_raise in Hrun as [[-> _]|(key & arr & -> & _)].
Qed.

Lemma mkdir_each_monotone dirs :
  ∀ fs fs1 r p, mkdir_each dirs fs = (fs1, r) → is_Some (fs !! p) → is_Some (fs1 !! p).
Proof.
  intros fs fs1 r p Hrun Hp.
  rewrite (mkdir_each_lookup dirs fs fs1 r p Hrun); [done|by right].
Qed.

Lemma mkdir_each_raises dirs :
  ∀ fs fs1 e, mkdir_each dirs fs = (fs1, Raise e) → ∃ d, e = MkdirError d ∧ d ∈ dirs.
Proof.
  induction dirs as [|d dirs IH]; intros fs fs1 e; simpl; [done|].
  destruct (fs !! d) as [[]|];
    try (intros [= _ <-]; exists d; split; [done|apply elem_of_cons; by left]);
    intros (d' & -> & Hd')%IH; exists d'; (split; [done|apply elem_of_cons; by right]).
Qed.

(** After [mkdir], the directories asked for are directories. *)
Lemma mkdir_each_made dirs :
  ∀ fs fs1,
    mkdir_each dirs fs = (fs1, Ok ()) → Forall (λ d, fs1 !! d = Some Directory) dirs.
Proof.
  induction dirs as [|d dirs IH]; intros fs fs1 Hrun; [constructor|].
  simpl in Hrun. destruct (fs !! d) as [[]|] eqn:Hd; try done.
  - constructor; [|by eapply IH].
    rewrite (mkdir_each_lookup _ _ _ _ d Hrun); [done|]. right. by rewrite Hd.
  - constructor; [|by eapply IH].
    rewrite (mkdir_each_lookup _ _ _ _ d Hrun); [apply lookup_insert_eq|].
    right. rewrite lookup_insert_eq. by eexists.
Qed.

(** [mkdir] over directories that are there changes nothing. *)
Lemma mkdir_each_again dirs fs :
  Forall (λ d, fs !! d = Some Directory) dirs → mkdir_each dirs fs = (fs, Ok ()).
Proof.
  induction 1 as [|d dirs Hd _ IH]; [reflexivity|]. simpl. by rewrite Hd.
Qed.

Lemma batch_targets_length dest files p :
  p ∈ batch_targets dest files → List.length p = S (List.length dest).
Proof.
  unfold batch_targets. intros (f & Hp & _)%list_elem_of_bind.
  rewrite !elem_of_cons in Hp. destruct Hp as [->|[->|Hp]].
  - apply output_path_length.
  - apply metadata_path_length.
  - by apply elem_of_nil in Hp.
Qed.

Lemma ancestors_not_targets dest files p :
  p ∈ ancestors_from [] dest → p ∉ batch_targets dest files.
Proof.
  intros Hanc%ancestors_from_length Htarget%batch_targets_length. simpl in Hanc. lia.
Qed.

(** One round of the loop: what it may change, what it keeps. *)
Lemma main_step_effect now force dest f b b' r :
  main_step now force dest f b = (b', r) →
  (∀ p, p ≠ output_path_of dest f → p ≠ metadata_path_of dest f →
        b_fs b' !! p = b_fs b !! p) ∧
  (∀ p, is_Some (b_fs b !! p) → is_Some (b_fs b' !! p)) ∧
  (force = false → ∀ p, is_Some (b_fs b !! p) → b_fs b' !! p = b_fs b !! p) ∧
  (r = Ok () → has_output (b_fs b') dest f = true) ∧
  (∀ e, r = Raise e → is_conversion_error e = true).
Proof.
  unfold main_step. fold (has_output (b_fs b) dest f).
  destruct (negb force && has_output (b_fs b) dest f) eqn:Hskip.
  - intros [= <- <-]. simpl. apply andb_true_iff in Hskip as [_ Hhas].
    by repeat split.
  - destruct (convert_file _ _ _ _ _) as [fs' [shp|e]] eqn:Hconv; intros [= <- <-]; simpl.
    + split; [intros p; by apply (convert_file_lookup _ _ _ _ _ _ _ _ Hconv)|].
      split; [intros p; by apply (convert_file_monotone _ _ _ _ _ _ _ _ Hconv)|].
      split; [|split; [|done]].
      * intros -> p. simpl in Hskip. apply orb_false_iff in Hskip as [Hout Hmeta].
        by apply (convert_file_keeps_existing _ _ _ _ _ _ _ _ Hout Hmeta Hconv).
      * intros _. unfold has_output, path_exists.
        rewrite (bool_decide_eq_true_2 _ (convert_file_output_exists _ _ _ _ _ _ _ Hconv)).
        done.
    + split; [intros p; by apply (convert_file_lookup _ _ _ _ _ _ _ _ Hconv)|].
      split; [intros p; by apply (convert_file_monotone _ _ _ _ _ _ _ _ Hconv)|].
      split; [|split; [done|]].
      * intros -> p. simpl in Hskip. apply orb_false_iff in Hskip as [Hout Hmeta].
        by apply (convert_file_keeps_existing _ _ _ _ _ _ _ _ Hout Hmeta Hconv).
      * intros e' [= <-]. by apply (convert_file_raises _ _ _ _ _ _ _ Hconv).
Qed.

(** The loop: the same, over all its rounds. *)
Lemma main_loop_effect now force dest files :
  ∀ b b' r,
    main_loop now force dest files b = (b', r) →
    (∀ p, p ∉ batch_targets dest files → b_fs b' !! p = b_fs b !! p) ∧
    (∀ p, is_Some (b_fs b !! p) → is_Some (b_fs b' !! p)) ∧
    (force = false → ∀ p, is_Some (b_fs b !! p) → b_fs b' !! p = b_fs b !! p) ∧
    (r = Ok () → Forall (λ f, has_output (b_fs b') dest f = true) files) ∧
    (∀ e, r = Raise e → is_conversion_error e = true).
Proof.
  induction files as [|f files IH]; intros b b' r Hrun.
  - injection Hrun as <- <-. by repeat split.
  - rewrite main_loop_cons in Hrun.
    destruct (main_step now force dest f b) as [b1 [[]|e]] eqn:Hstep;
      apply main_step_effect in Hstep as (Hframe1 & Hmono1 & Hkeep1 & Hout1 & Herr1).
    + apply IH in Hrun as (Hframe & Hmono & Hkeep & Hout & Herr).
      split; [|split; [|split; [|split]]].
      * intros p Hp. rewrite batch_targets_cons, !not_elem_of_cons in Hp.
        destruct Hp as (Hp1 & Hp2 & Hp). rewrite Hframe by done. by apply Hframe1.
      * intros p Hp. by apply Hmono, Hmono1.
      * intros Hforce p Hp. rewrite Hkeep by (try done; by apply Hmono1).
        by apply Hkeep1.
      * intros Hr. constructor; [|by apply Hout].
        specialize (Hout1 eq_refl). unfold has_output, path_exists in *.
        apply orb_true_iff in Hout1. apply orb_true_iff.
        destruct Hout1 as [H1%bool_decide_eq_true|H1%bool_decide_eq_true]; [left|right];
          apply bool_decide_eq_true; by apply Hmono.
      * exact Herr.
    + injection Hrun as <- <-. split; [|split; [|split; [|split]]]; try done.
      intros p Hp. rewrite batch_targets_cons, !not_elem_of_cons in Hp.
      destruct Hp as (Hp1 & Hp2 & Hp). by apply Hframe1.
Qed.

(** X12. Without the force flag the batch driver overwrites nothing: however
    the run ends, every path that held something before the run holds the
    same afterwards. *)
Theorem batch_overwrites_nothing_without_force :
  ∀ a globbed now fs fs' printed r,
    force a = false →
    main a globbed now fs = (fs', printed, r) →
    ∀ p, is_Some (fs !! p) → fs' !! p = fs !! p.
Proof.
  intros a globbed now fs fs' printed r Hforce. unfold main. rewrite Hforce.
  destruct (negb (path_exists (input_dir a) fs)); [by intros [= <- _ _]|].
  destruct (sorted globbed) as [|file_path files]; [by intros [= <- _ _]|].
  destruct (mkdir_parents _ fs) as [fs1 rm] eqn:Hmk. unfold mkdir_parents in Hmk.
  assert (Hkeep1 : ∀ p, is_Some (fs !! p) → fs1 !! p = fs !! p).
  { intros p Hp. apply (mkdir_each_lookup _ _ _ _ p Hmk). by right. }
  destruct rm as [[]|e]; [|intros [= <- _ _]; exact Hkeep1].
  destruct (main_loop _ _ _ _ _) as [b rl] eqn:Hloop.
  apply main_loop_effect in Hloop as (_ & _ & Hkeep & _ & _). simpl in Hkeep.
  assert (Hall : ∀ p, is_Some (fs !! p) → b_fs b !! p = fs !! p).
  { intros p Hp. rewrite Hkeep; [by apply Hkeep1|done|]. by rewrite Hkeep1. }
  destruct rl as [[]|e]; intros [= <- _ _]; exact Hall.
Qed.

(** The run over the sample directory leaves the earlier archive of [b]
    as it was. *)
Lemma batch_overwrites_nothing_without_force_witness :
  (main sample_args sample_globbed (λ _, "t") sample_fs).1.1 !! ["out"; "ExpD"; "b.npz"]
  = sample_fs !! ["out"; "ExpD"; "b.npz"].
Proof.
  apply (batch_overwrites_nothing_without_force sample_args sample_globbed (λ _, "t")
           sample_fs _ (main sample_args sample_globbed (λ _, "t") sample_fs).1.2
           (main sample_args sample_globbed (λ _, "t") sample_fs).2).
  - reflexivity.
  - by destruct (main sample_args sample_globbed (λ _, "t") sample_fs) as [[? ?] ?].
  - by_evaluation.
Defined.

(** X13. Whatever the force flag and however the run ends, the batch driver
    changes the file system at the destinations of the matched files and at
    the destination directory and its parents only: every other path, the
    source files among them, is as before.  The experiment label is one
    proper component of a path, so that the destination directory is the
    output directory with the label appended. *)
Theorem batch_changes_destinations_only :
  ∀ a globbed now fs fs' printed r,
    proper_component (experiment a) = true →
    main a globbed now fs = (fs', printed, r) →
    ∀ p,
      p ∉ batch_targets (destination_dir_of a) globbed →
      p ∉ ancestors_from [] (destination_dir_of a) →
      fs' !! p = fs !! p.
Proof.
  intros a globbed now fs fs' printed r _ Hrun p Htarget Hanc. revert Hrun. unfold main.
  destruct (negb (path_exists (input_dir a) fs)); [by intros [= <- _ _]|].
  assert (Hperm := sorted_permutation globbed).
  destruct (sorted globbed) as [|file_path files] eqn:Hfiles; [by intros [= <- _ _]|].
  rewrite <- Hfiles. rewrite <- Hfiles in Hperm. clear file_path files Hfiles.
  destruct (mkdir_parents _ fs) as [fs1 rm] eqn:Hmk. unfold mkdir_parents in Hmk.
  assert (Hkeep1 : fs1 !! p = fs !! p).
  { apply (mkdir_each_lookup _ _ _ _ p Hmk). by left. }
  destruct rm as [[]|e]; [|by intros [= <- _ _]].
  destruct (main_loop _ _ _ _ _) as [b rl] eqn:Hloop.
  apply main_loop_effect in Hloop as (Hframe & _). simpl in Hframe.
  assert (Hp : b_fs b !! p = fs !! p).
  { rewrite Hframe; [done|]. by rewrite (batch_targets_permutation _ _ _ Hperm). }
  by destruct rl as [[]|e]; intros [= <- _ _].
Qed.

(** The run over the sample directory leaves the source file [a.mat] as it
    was. *)
Lemma batch_changes_destinations_only_witness :
  (main sample_args sample_globbed (λ _, "t") sample_fs).1.1 !! ["data"; "a.mat"]
  = sample_fs !! ["data"; "a.mat"].
Proof.
  apply (batch_changes_destinations_only sample_args sample_globbed (λ _, "t")
           sample_fs _ (main sample_args sample_globbed (λ _, "t") sample_fs).1.2
           (main sample_args sample_globbed (λ _, "t") sample_fs).2).
  - reflexivity.
  - by destruct (main sample_args sample_globbed (λ _, "t") sample_fs) as [[? ?] ?].
  - by_evaluation.
  - by_evaluation.
Defined.

Lemma main_loop_forced now dest files :
  ∀ b b',
    main_loop now true dest files b = (b', Ok ()) →
    b_converted b' = b_converted b + List.length files ∧
    b_skipped b' = b_skipped b ∧
    b_printed b'
    = b_printed b ++ ((λ f, Converted f (output_path_of dest f)) <$> files).
Proof.
  induction files as [|f files IH]; intros b b' Hrun.
  - injection Hrun as <-. simpl. rewrite app_nil_r. repeat split; lia.
  - rewrite main_loop_cons in Hrun. unfold main_step in Hrun. cbn [negb andb] in Hrun.
    destruct (convert_file _ _ _ _ _) as [fs1 [shp|e]]; [|done].
    apply IH in Hrun as (Hconv & Hskip & Hprinted). simpl in *.
    rewrite Hconv, Hskip, Hprinted, <- app_assoc. repeat split; lia.
Qed.

(** X14. With the force flag the batch driver skips nothing: a run that
    completes has converted every matched file, in sorted order, and reports
    them all as converted and none as skipped.  The experiment label is one
    proper component of a path, no destination of a matched file is a
    directory, and no record gives an array the name [allow_pickle], so
    that the forced writes go through. *)
Theorem forced_batch_converts_every_file :
  ∀ a globbed now fs fs' printed,
    proper_component (experiment a) = true →
    Forall (λ p, is_directory fs p = false)
      (batch_targets (destination_dir_of a) globbed) →
    Forall (λ f, stores_every_array fs f = true) globbed →
    force a = true →
    main a globbed now fs = (fs', printed, Ok ()) →
    printed
    = ((λ f, Converted f (output_path_of (destination_dir_of a) f)) <$> sorted globbed)
        ++ [Completed (List.length globbed) 0] ∧
    Forall (λ f, has_output fs' (destination_dir_of a) f = true) globbed.
Proof.
  intros a globbed now fs fs' printed _ _ _ Hforce. unfold main. rewrite Hforce.
  destruct (negb (path_exists (input_dir a) fs)); [done|].
  assert (Hperm := sorted_permutation globbed).
  destruct (sorted globbed) as [|file_path files] eqn:Hfiles; [done|].
  rewrite <- Hfiles. rewrite <- Hfiles in Hperm. clear file_path files Hfiles.
  destruct (mkdir_parents _ fs) as [fs1 [[]|e]]; [|done].
  destruct (main_loop _ _ _ _ _) as [b [[]|e]] eqn:Hloop; [|done].
  intros [= <- <-].
  assert (Hout := main_loop_effect _ _ _ _ _ _ _ Hloop).
  destruct Hout as (_ & _ & _ & Hout & _).
  apply main_loop_forced in Hloop as (-> & -> & ->). simpl.
  rewrite (Permutation_length Hperm). split; [done|].
  rewrite <- Hperm. by apply Hout.
Qed.

(** The sample directory with the force flag: [b] is converted again. *)
Lemma forced_batch_converts_every_file_witness :
  (main (Args ["data"] ["out"] "ExpD" "*.mat" true) sample_globbed (λ _, "t") sample_fs).1.2
  = [Converted ["data"; "a.mat"] ["out"; "ExpD"; "a.npz"];
     Converted ["data"; "b.mat"] ["out"; "ExpD"; "b.npz"];
     Converted ["data"; "c.mat"] ["out"; "ExpD"; "c.npz"];
     Completed 3 0].
Proof.
  refine (proj1 (forced_batch_converts_every_file
                   (Args ["data"] ["out"] "ExpD" "*.mat" true) sample_globbed (λ _, "t")
                   sample_fs
                   (main (Args ["data"] ["out"] "ExpD" "*.mat" true) sample_globbed
                      (λ _, "t") sample_fs).1.1 _ _ _ _ eq_refl _)).
  - reflexivity.
  - by_evaluation.
  - by_evaluation.
  - reflexivity.
Defined.

Lemma main_loop_all_skipped now dest files fs :
  Forall (λ f, has_output fs dest f = true) files →
  ∀ converted skipped printed,
    main_loop now false dest files (Batch fs converted skipped printed)
    = (Batch fs converted (skipped + List.length files)
         (printed ++ ((λ f, Skipping (path_stem f)) <$> files)),
       Ok ()).
Proof.
  induction 1 as [|f files Hf _ IH]; intros converted skipped printed.
  - simpl. by rewrite Nat.add_0_r, app_nil_r.
  - rewrite main_loop_cons. unfold main_step.
    cbn [b_fs b_converted b_skipped b_printed].
    fold (has_output fs dest f). rewrite Hf. cbn [negb andb].
    rewrite IH. simpl. rewrite <- app_assoc.
    by replace (skipped + 1 + List.length files) with (skipped + S (List.length files))
      by lia.
Qed.

(** X15. After a batch run that completed, the same run without the force
    flag finds every matched file converted: it skips them all, reports
    none as converted, and leaves the file system exactly as it found
    it. *)
Theorem batch_again_skips_every_file :
  ∀ a globbed now now' fs fs' printed,
    main a globbed now fs = (fs', printed, Ok ()) →
    main (without_force a) globbed now' fs'
    = (fs',
       ((λ f, Skipping (path_stem f)) <$> sorted globbed)
         ++ [Completed 0 (List.length globbed)],
       Ok ()).
Proof.
  intros a globbed now now' fs fs' printed. unfold main at 1.
  destruct (negb (path_exists (input_dir a) fs)) eqn:Hinput; [done|].
  assert (Hperm := sorted_permutation globbed).
  destruct (sorted globbed) as [|file_path files] eqn:Hfiles; [done|].
  destruct (mkdir_parents _ fs) as [fs1 [[]|e]] eqn:Hmk; [|done].
  destruct (main_loop _ _ _ _ _) as [b [[]|e]] eqn:Hloop; [|done].
  intros [= <- _].
  apply main_loop_effect in Hloop as (Hframe & Hmono & _ & Hout & _).
  cbn [b_fs] in Hframe, Hmono. specialize (Hout eq_refl). unfold mkdir_parents in Hmk.
  unfold main.
  change (input_dir (without_force a)) with (input_dir a).
  change (force (without_force a)) with false.
  change (destination_dir_of (without_force a)) with (destination_dir_of a).
  assert (Hexists : path_exists (input_dir a) (b_fs b) = true).
  { apply negb_false_iff in Hinput. unfold path_exists in *.
    apply bool_decide_eq_true. apply bool_decide_eq_true in Hinput.
    by eapply Hmono, mkdir_each_monotone. }
  rewrite Hexists, Hfiles. cbn [negb].
  assert (Hdirs : Forall (λ d, b_fs b !! d = Some Directory)
                    (ancestors_from [] (destination_dir_of a))).
  { assert (Hmade := mkdir_each_made _ _ _ Hmk). rewrite Forall_forall in Hmade.
    apply Forall_forall. intros d Hd. rewrite Hframe; [by apply Hmade|].
    by apply ancestors_not_targets. }
  unfold mkdir_parents. rewrite (mkdir_each_again _ _ Hdirs).
  rewrite (main_loop_all_skipped _ _ _ _ Hout). simpl.
  by rewrite <- (Permutation_length Hperm).
Qed.

(** The sample directory, converted and then visited again. *)
Lemma batch_again_skips_every_file_witness :
  let fs' := (main sample_args sample_globbed (λ _, "t") sample_fs).1.1 in
  main (without_force sample_args) sample_globbed (λ _, "t'") fs'
  = (fs', [Skipping "a"; Skipping "b"; Skipping "c"; Completed 0 3], Ok ()).
Proof.
  intros fs'.
  exact (batch_again_skips_every_file sample_args sample_globbed (λ _, "t") (λ _, "t'")
           sample_fs fs'
           (main sample_args sample_globbed (λ _, "t") sample_fs).1.2 eq_refl).
Defined.

(** X16. The exceptions of the batch driver, for a pattern that [glob]
    accepts, an experiment label that is one proper component of a path,
    records with no array named [allow_pickle] and, with the force flag, no
    directory at a destination of a matched file.  A missing input
    directory and, with the directory there, an empty match make the driver
    raise before anything is created or printed, and their two errors are
    raised in these cases only; any other exception comes from creating the
    destination directory or from a conversion. *)
Theorem batch_errors :
  ∀ a globbed now fs,
    glob_pattern (pattern a) = true →
    proper_component (experiment a) = true →
    (force a = true →
     Forall (λ p, is_directory fs p = false)
       (batch_targets (destination_dir_of a) globbed)) →
    Forall (λ f, stores_every_array fs f = true) globbed →
    (path_exists (input_dir a) fs = false →
     main a globbed now fs = (fs, [], Raise (InputDirMissing (input_dir a)))) ∧
    (path_exists (input_dir a) fs = true →
     globbed = [] →
     main a globbed now fs = (fs, [], Raise (NoFilesMatching (pattern a) (input_dir a)))) ∧
    ∀ fs' printed e,
      main a globbed now fs = (fs', printed, Raise e) →
      (e = InputDirMissing (input_dir a) ∧
       path_exists (input_dir a) fs = false ∧ fs' = fs ∧ printed = [])
      ∨ (e = NoFilesMatching (pattern a) (input_dir a) ∧
         path_exists (input_dir a) fs = true ∧ globbed = [] ∧ fs' = fs ∧ printed = [])
      ∨ (path_exists (input_dir a) fs = true ∧ globbed ≠ [] ∧
         ((∃ d, e = MkdirError d ∧ d ∈ ancestors_from [] (destination_dir_of a)
                ∧ printed = [])
          ∨ is_conversion_error e = true)).
Proof.
  intros a globbed now fs _ _ _ _. split; [|split].
  - intros Hinput. unfold main. by rewrite Hinput.
  - intros Hinput ->. unfold main. by rewrite Hinput.
  - intros fs' printed e. unfold main.
    destruct (path_exists (input_dir a) fs) eqn:Hinput; cbn [negb].
    2:{ intros [= <- <- <-]. by left. }
    assert (Hperm := sorted_permutation globbed).
    destruct (sorted globbed) as [|file_path files] eqn:Hfiles.
    { intros [= <- <- <-]. right. left. apply Permutation_nil in Hperm. by repeat split. }
    assert (Hsome : globbed ≠ []).
    { intros ->. by apply Permutation_nil_r in Hperm. }
    destruct (mkdir_parents _ fs) as [fs1 [[]|e1]] eqn:Hmk.
    + destruct (main_loop _ _ _ _ _) as [b [[]|e2]] eqn:Hloop; [done|].
      intros [= _ _ <-]. right. right. repeat split; try done. right.
      apply main_loop_effect in Hloop as (_ & _ & _ & _ & Herr). by apply Herr.
    + intros [= _ <- <-]. right. right. repeat split; try done. left.
      apply mkdir_each_raises in Hmk as (d & -> & Hd). by exists d.
Qed.

(** The sample run on an empty file system: the input directory is
    missing and nothing is created. *)
Lemma batch_errors_witness :
  main sample_args sample_globbed (λ _, "t") ∅ = (∅, [], Raise (InputDirMissing ["data"])).
Proof.
  refine (proj1 (batch_errors sample_args sample_globbed (λ _, "t") ∅ _ _ _ _) _).
  - reflexivity.
  - reflexivity.
  - discriminate.
  - by_evaluation.
  - reflexivity.
Defined.

(** * The single-file script *)

Lemma pinknoise_output_length a :
  List.length (Pinknoise.output_path_of a) = S (List.length (Pinknoise.destination_dir_of a)).
Proof. unfold Pinknoise.output_path_of, joinpath. rewrite length_app. simpl. lia. Qed.

Lemma pinknoise_metadata_length a :
  List.length (Pinknoise.metadata_path_of a)
  = S (List.length (Pinknoise.destination_dir_of a)).
Proof.
  unfold Pinknoise.metadata_path_of, with_suffix, Pinknoise.output_path_of, joinpath.
  rewrite removelast_last, length_app. simpl. lia.
Qed.

Lemma pinknoise_output_neq_metadata a :
  Pinknoise.output_path_of a ≠ Pinknoise.metadata_path_of a.
Proof.
  unfold Pinknoise.metadata_path_of, with_suffix, Pinknoise.output_path_of, joinpath.
  intros Heq. apply app_inj_tail in Heq as [_ Heq].
  apply (f_equal last_char) in Heq.
  rewrite !last_char_app in Heq by done. discriminate Heq.
Qed.

(** [mkdir] of the destination directory does not touch the two
    destinations. *)
Lemma pinknoise_mkdir_destinations a fs fs1 r :
  mkdir_parents (Pinknoise.destination_dir_of a) fs = (fs1, r) →
  fs1 !! Pinknoise.output_path_of a = fs !! Pinknoise.output_path_of a ∧
  fs1 !! Pinknoise.metadata_path_of a = fs !! Pinknoise.metadata_path_of a.
Proof.
  unfold mkdir_parents. intros Hmk.
  split; apply (mkdir_each_lookup _ _ _ _ _ Hmk); left;
    intros Hin%ancestors_from_length; simpl in Hin.
  - rewrite pinknoise_output_length in Hin. lia.
  - rewrite pinknoise_metadata_length in Hin. lia.
Qed.

(** The first of the two destinations that is there, as the loop of [main]
    finds it. *)
Lemma find_existing (fs : gmap Path file) (output_path metadata_path : Path) :
  List.find (λ p, path_exists p fs) [output_path; metadata_path]
  = if path_exists output_path fs then Some output_path
    else if path_exists metadata_path fs then Some metadata_path
    else None.
Proof. simpl. by destruct (path_exists output_path fs), (path_exists metadata_path fs). Qed.

(** X17. Without the force flag the single-file script overwrites nothing:
    however the run ends, every path that held something before holds the
    same afterwards. *)
Theorem single_overwrites_nothing_without_force :
  ∀ a now fs fs' printed r,
    Pinknoise.force a = false →
    Pinknoise.main a now fs = (fs', printed, r) →
    ∀ p, is_Some (fs !! p) → fs' !! p = fs !! p.
Proof.
  intros a now fs fs' printed r Hforce. unfold Pinknoise.main. rewrite Hforce.
  destruct (negb (path_exists (Pinknoise.input a) fs)); [by intros [= <- _ _]|].
  destruct (mkdir_parents _ fs) as [fs1 rm] eqn:Hmk.
  assert (Hkeep1 : ∀ p, is_Some (fs !! p) → fs1 !! p = fs !! p).
  { intros p Hp. unfold mkdir_parents in Hmk.
    apply (mkdir_each_lookup _ _ _ _ p Hmk). by right. }
  destruct rm as [[]|e]; [|intros [= <- _ _]; exact Hkeep1].
  rewrite find_existing.
  destruct (path_exists (Pinknoise.output_path_of a) fs1) eqn:Hout;
    [intros [= <- _ _]; exact Hkeep1|].
  destruct (path_exists (Pinknoise.metadata_path_of a) fs1) eqn:Hmeta;
    [intros [= <- _ _]; exact Hkeep1|].
  destruct (convert_file _ _ _ _ _) as [fs2 rc] eqn:Hconv.
  assert (Hall : ∀ p, is_Some (fs !! p) → fs2 !! p = fs !! p).
  { intros p Hp.
    rewrite (convert_file_keeps_existing _ _ _ _ _ _ _ p Hout Hmeta Hconv);
      [by apply Hkeep1|]. by rewrite Hkeep1. }
  destruct rc as [shp|e]; intros [= <- _ _]; exact Hall.
Qed.

(** Converting [a.mat] next to the earlier archive of [b]. *)
Lemma single_overwrites_nothing_without_force_witness :
  (Pinknoise.main sample_single_args "t" sample_fs).1.1 !! ["out"; "ExpD"; "b.npz"]
  = sample_fs !! ["out"; "ExpD"; "b.npz"].
Proof.
  apply (single_overwrites_nothing_without_force sample_single_args "t" sample_fs _
           (Pinknoise.main sample_single_args "t" sample_fs).1.2
           (Pinknoise.main sample_single_args "t" sample_fs).2).
  - reflexivity.
  - by destruct (Pinknoise.main sample_single_args "t" sample_fs) as [[? ?] ?].
  - by_evaluation.
Defined.

(** X18. The errors of the single-file script, for an experiment label
    and an archive name that are proper components of a path, a record
    with no array named [allow_pickle] and, with the force flag, no
    directory at the two destinations.  A missing input makes the script
    raise before anything is created, and its error is raised in this case
    only; the error of an existing destination is raised only without the
    force flag, names a destination that was there before the run, the
    archive first, and comes before any conversion; every other exception
    is one of [mkdir] or of the conversion. *)
Theorem single_errors :
  ∀ a now fs,
    proper_component (Pinknoise.experiment a) = true →
    proper_component (Pinknoise.dataset_name a +:+ ".npz") = true →
    (Pinknoise.force a = true →
     is_directory fs (Pinknoise.output_path_of a) = false ∧
     is_directory fs (Pinknoise.metadata_path_of a) = false) →
    stores_every_array fs (Pinknoise.input a) = true →
    (path_exists (Pinknoise.input a) fs = false →
     Pinknoise.main a now fs
     = (fs, [], Some (Pinknoise.FileNotFound (Pinknoise.input a)))) ∧
    ∀ fs' printed err,
      Pinknoise.main a now fs = (fs', printed, Some err) →
      printed = [] ∧
      ((err = Pinknoise.FileNotFound (Pinknoise.input a) ∧
        path_exists (Pinknoise.input a) fs = false ∧ fs' = fs)
       ∨ (path_exists (Pinknoise.input a) fs = true ∧
          ((∃ p, err = Pinknoise.FileExists p ∧
                 Pinknoise.force a = false ∧
                 is_Some (fs !! p) ∧
                 fs' = (mkdir_parents (Pinknoise.destination_dir_of a) fs).1 ∧
                 (p = Pinknoise.output_path_of a
                  ∨ (p = Pinknoise.metadata_path_of a
                     ∧ fs !! Pinknoise.output_path_of a = None)))
           ∨ (∃ d, err = Pinknoise.Raised (MkdirError d) ∧
                   d ∈ ancestors_from [] (Pinknoise.destination_dir_of a))
           ∨ (∃ e, err = Pinknoise.Raised e ∧ is_conversion_error e = true)))).
Proof.
  intros a now fs _ _ _ _. split.
  { intros Hinput. unfold Pinknoise.main. by rewrite Hinput. }
  intros fs' printed err. unfold Pinknoise.main.
  destruct (path_exists (Pinknoise.input a) fs) eqn:Hinput; cbn [negb].
  2:{ intros [= <- <- <-]. split; [done|]. by left. }
  destruct (mkdir_parents _ fs) as [fs1 rm] eqn:Hmk.
  destruct (pinknoise_mkdir_destinations a fs fs1 rm Hmk) as [Hout1 Hmeta1].
  destruct rm as [[]|e].
  2:{ intros [= _ <- <-]. split; [done|]. right. split; [done|]. right. left.
      apply mkdir_each_raises in Hmk as (d & -> & Hd). by exists d. }
  destruct (Pinknoise.force a) eqn:Hforce.
  - destruct (convert_file _ _ _ _ _) as [fs2 [shp|e]] eqn:Hconv; [done|].
    intros [= _ <- <-]. split; [done|]. right. split; [done|]. right. right.
    exists e. split; [done|]. by apply (convert_file_raises _ _ _ _ _ _ _ Hconv).
  - rewrite find_existing. unfold path_exists at 1 2. rewrite Hout1, Hmeta1.
    case_bool_decide as Hout.
    { intros [= <- <- <-]. split; [done|]. right. split; [done|]. left.
      exists (Pinknoise.output_path_of a). repeat split; try done. by left. }
    case_bool_decide as Hmeta.
    { intros [= <- <- <-]. split; [done|]. right. split; [done|]. left.
      exists (Pinknoise.metadata_path_of a). repeat split; try done. right.
      split; [done|]. by apply eq_None_not_Some. }
    destruct (convert_file _ _ _ _ _) as [fs2 [shp|e]] eqn:Hconv; [done|].
    intros [= _ <- <-]. split; [done|]. right. split; [done|]. right. right.
    exists e. split; [done|]. by apply (convert_file_raises _ _ _ _ _ _ _ Hconv).
Qed.

(** The data set [b] of the sample directory is there already. *)
Lemma single_errors_witness :
  (Pinknoise.main sample_single_args_again "t" sample_fs).1.2 = [].
Proof.
  refine (proj1 (proj2 (single_errors sample_single_args_again "t" sample_fs _ _ _ _)
                   (Pinknoise.main sample_single_args_again "t" sample_fs).1.1
                   (Pinknoise.main sample_single_args_again "t" sample_fs).1.2
                   (Pinknoise.FileExists ["out"; "ExpD"; "b.npz"]) eq_refl)).
  - reflexivity.
  - reflexivity.
  - discriminate.
  - reflexivity.
Defined.

(** X19. Without the force flag, with the input in place and the
    destination directory creatable, an archive or a manifest that is
    already there makes the single-file script raise its already-exists
    error: no conversion takes place and nothing is printed.  The
    experiment label and the archive name are proper components of a path,
    so that the two destinations are the output directory with the label
    and the name appended. *)
Theorem single_refuses_existing_destination :
  ∀ a now fs,
    proper_component (Pinknoise.experiment a) = true →
    proper_component (Pinknoise.dataset_name a +:+ ".npz") = true →
    Pinknoise.force a = false →
    path_exists (Pinknoise.input a) fs = true →
    (mkdir_parents (Pinknoise.destination_dir_of a) fs).2 = Ok () →
    path_exists (Pinknoise.output_path_of a) fs
    || path_exists (Pinknoise.metadata_path_of a) fs = true →
    Pinknoise.main a now fs
    = ((mkdir_parents (Pinknoise.destination_dir_of a) fs).1, [],
       Some (Pinknoise.FileExists
               (if path_exists (Pinknoise.output_path_of a) fs
                then Pinknoise.output_path_of a
                else Pinknoise.metadata_path_of a))).
Proof.
  intros a now fs _ _ Hforce Hinput Hmkdir Hthere. unfold Pinknoise.main.
  rewrite Hinput, Hforce. cbn [negb].
  destruct (mkdir_parents _ fs) as [fs1 rm] eqn:Hmk. simpl in Hmkdir. subst rm.
  destruct (pinknoise_mkdir_destinations a fs fs1 _ Hmk) as [Hout1 Hmeta1].
  rewrite find_existing. simpl.
  rewrite (path_exists_ext _ fs fs1 Hout1), (path_exists_ext _ fs fs1 Hmeta1).
  destruct (path_exists (Pinknoise.output_path_of a) fs); [done|].
  simpl in Hthere. by rewrite Hthere.
Qed.

Lemma single_refuses_existing_destination_witness :
  Pinknoise.main sample_single_args_again "t" sample_fs
  = (sample_fs, [], Some (Pinknoise.FileExists ["out"; "ExpD"; "b.npz"])).
Proof.
  rewrite (single_refuses_existing_destination sample_single_args_again "t" sample_fs);
    reflexivity.
Defined.

(** X20. A run of the single-file script that ends without an error has
    written the archive and its manifest; the manifest lists the keys of
    the archive, each with the shape and the dtype of the archived array,
    and the number of arrays the script reports is the number of arrays in
    the archive.  The experiment label and the archive name are proper
    components of a path, the record gives no array the name
    [allow_pickle], so that the archive holds every array of the flat
    dictionary, and with the force flag no destination is a directory. *)
Theorem single_reports_the_arrays_written :
  ∀ a now fs fs' printed,
    proper_component (Pinknoise.experiment a) = true →
    proper_component (Pinknoise.dataset_name a +:+ ".npz") = true →
    (Pinknoise.force a = true →
     is_directory fs (Pinknoise.output_path_of a) = false ∧
     is_directory fs (Pinknoise.metadata_path_of a) = false) →
    stores_every_array fs (Pinknoise.input a) = true →
    Pinknoise.main a now fs = (fs', printed, None) →
    ∃ archive doc,
      fs' !! Pinknoise.output_path_of a = Some (NpzFile archive) ∧
      fs' !! Pinknoise.metadata_path_of a = Some (JsonFile doc) ∧
      source_file doc = Pinknoise.input a ∧
      npz_file doc = Pinknoise.output_path_of a ∧
      dom (arrays doc) = dom archive ∧
      (∀ key arr,
         archive !! key = Some arr →
         arrays doc !! key
         = Some (ManifestEntry (nd_shape arr) (dtype_str (nd_dtype arr)))) ∧
      printed = [Pinknoise.Wrote (Pinknoise.output_path_of a) (size archive);
                 Pinknoise.MetadataStored (Pinknoise.metadata_path_of a)].
Proof.
  intros a now fs fs' printed _ _ _ _. unfold Pinknoise.main.
  destruct (negb (path_exists (Pinknoise.input a) fs)); [done|].
  destruct (mkdir_parents _ fs) as [fs1 [[]|e]]; [|done].
  destruct (if Pinknoise.force a then None else _); [done|].
  destruct (convert_file _ _ _ _ _) as [fs2 [shp|e]] eqn:Hconv; [|done].
  intros [= <- <-].
  apply convert_file_ok in Hconv as (raw & st & _ & Hflat & _ & _ & -> & ->).
  assert (Hst : consistent st).
  { revert Hflat. apply flatten_record_preserves; [|exact consistent_empty].
    intros. by apply consistent_assign. }
  destruct Hst as [Hdom Hentries].
  exists (flat st), (Manifest (Pinknoise.input a) (Pinknoise.output_path_of a) now (shapes st)).
  split; [|split; [|split; [|split; [|split; [|split]]]]]; try done.
  - rewrite lookup_insert_ne by (symmetry; apply pinknoise_output_neq_metadata).
    apply lookup_insert_eq.
  - apply lookup_insert_eq.
  - by rewrite <- !size_dom, Hdom.
Qed.

Lemma single_reports_the_arrays_written_witness :
  ∃ archive,
    (Pinknoise.main sample_single_args "t" sample_fs).1.1 !! ["out"; "ExpD"; "a.npz"]
    = Some (NpzFile archive) ∧
    (Pinknoise.main sample_single_args "t" sample_fs).1.2
    = [Pinknoise.Wrote ["out"; "ExpD"; "a.npz"] (size archive);
       Pinknoise.MetadataStored ["out"; "ExpD"; "a.json"]].
Proof.
  destruct (single_reports_the_arrays_written sample_single_args "t" sample_fs
              (Pinknoise.main sample_single_args "t" sample_fs).1.1
              (Pinknoise.main sample_single_args "t" sample_fs).1.2)
    as (archive & doc & Harchive & _ & _ & _ & _ & _ & Hprinted).
  - reflexivity.
  - reflexivity.
  - discriminate.
  - reflexivity.
  - reflexivity.
  - by exists archive.
Defined.
